(** * TypeDocParser: the multi-index symbol store of the TypeDoc MCP server

    A shallow embedding of [src/parser/index.ts] (class [TypeDocParser]):
    the four insertion-ordered maps, the recursive [buildIndex] pass and
    the query methods, followed by the properties of the specification
    that concern them. *)

From Stdlib Require Import ZArith List String Ascii Bool Lia.
Import ListNotations.

Local Open Scope string_scope.
Local Open Scope list_scope.
Local Open Scope Z_scope.

(** ** Keys of a JavaScript [Map]

    [Map] compares keys with SameValueZero; on the integers and the
    strings used here that is plain equality. *)

Class KeyEq (K : Type) : Type := {
  key_eqb : K -> K -> bool;
  key_eqb_spec : forall a b : K, reflect (a = b) (key_eqb a b)
}.

#[export] Instance Z_KeyEq : KeyEq Z :=
  {| key_eqb := Z.eqb; key_eqb_spec := Z.eqb_spec |}.

#[export] Instance string_KeyEq : KeyEq string :=
  {| key_eqb := String.eqb; key_eqb_spec := String.eqb_spec |}.

(** ** Insertion-ordered maps

    A JavaScript [Map] iterates in insertion order, and [set] on a key
    that is already present replaces the value where the key stands.
    Both [getPath] and the partial search iterate over a map, so the
    order is part of the model: a list of entries without repeated keys. *)

Module JsMap.
Section Ops.
Context {K V : Type} `{KeyEq K}.

Definition t : Type := list (K * V).

Definition empty : t := [].

Fixpoint get (k : K) (m : t) : option V :=
  match m with
    | [] => None
    | (k', v) :: m' => if key_eqb k k' then Some v else get k m'
    end.

Fixpoint set (k : K) (v : V) (m : t) : t :=
  match m with
    | [] => [(k, v)]
    | (k', v') :: m' =>
        if key_eqb k k' then (k', v) :: m' else (k', v') :: set k v m'
    end.

Definition size (m : t) : nat := List.length m.

Definition keys (m : t) : list K := map fst m.

Definition values (m : t) : list V := map snd m.
End Ops.
Arguments t : clear implicits.
End JsMap.

(** ** Reflections

    The fields of [Reflection] that the parser reads.  [kind] is typed
    [number] but is tested for truthiness before use, so the model keeps
    an absent kind apart from a numeric one; optional fields are
    options.  Signatures are indexed through a cast to [Reflection]. *)

#[warnings="-register-all"]
Inductive Reflection : Type := mkReflection {
  id : Z;
  name : string;
  kind : option Z;
  kindString : option string;
  children : option (list Reflection);
  signatures : option (list Reflection)
}.

(** The enumerants of [ReflectionKind] that the parser or the
    specification names. *)
Definition ReflectionKind_Project : Z := 1.
Definition ReflectionKind_Module : Z := 2.
Definition ReflectionKind_Namespace : Z := 4.
Definition ReflectionKind_Enum : Z := 8.
Definition ReflectionKind_EnumMember : Z := 16.
Definition ReflectionKind_Variable : Z := 32.
Definition ReflectionKind_Function : Z := 64.
Definition ReflectionKind_Class : Z := 128.
Definition ReflectionKind_Interface : Z := 256.
Definition ReflectionKind_Constructor : Z := 512.
Definition ReflectionKind_Property : Z := 1024.
Definition ReflectionKind_Method : Z := 2048.
Definition ReflectionKind_CallSignature : Z := 4096.
Definition ReflectionKind_TypeAlias : Z := 2097152.

(** ** Truthiness *)

Definition truthy_string (s : string) : bool :=
  match s with EmptyString => false | _ => true end.

Definition truthy_number (n : Z) : bool := negb (n =? 0).

Definition truthy_kind (k : option Z) : bool :=
  match k with Some n => truthy_number n | None => false end.

(** [a || []] on an optional array: an array, even empty, is truthy. *)
Definition or_empty {A : Type} (o : option (list A)) : list A :=
  match o with Some l => l | None => [] end.

(** ** Parser state *)

Record TypeDocParser : Type := mkParser {
  index : JsMap.t Z Reflection;
  nameIndex : JsMap.t string (list Z);
  pathIndex : JsMap.t string Z;
  kindIndex : JsMap.t Z (list Z);
  doc : option Reflection;
  docPath : string
}.

Definition TypeDocParser_new (docPath : string) : TypeDocParser :=
  {| index := JsMap.empty; nameIndex := JsMap.empty;
     pathIndex := JsMap.empty; kindIndex := JsMap.empty;
     doc := None; docPath := docPath |}.

(** The template literal of [buildIndex]. *)
Definition fullPath (parentPath nodeName : string) : string :=
  if truthy_string parentPath then (parentPath ++ "." ++ nodeName)%string
  else nodeName.

(** The four index updates that [buildIndex] makes for one node, before
    it descends. *)
Definition indexNode (node : Reflection) (path : string)
    (p : TypeDocParser) : TypeDocParser :=
  let index1 := JsMap.set (id node) node (index p) in
  let pathIndex1 := JsMap.set path (id node) (pathIndex p) in
  let nameIds := or_empty (JsMap.get (name node) (nameIndex p)) in
  let nameIndex1 := JsMap.set (name node) (nameIds ++ [id node]) (nameIndex p) in
  let kindIndex1 :=
    match kind node with
    | Some k =>
        if truthy_number k then
          let kindIds := or_empty (JsMap.get k (kindIndex p)) in
          JsMap.set k (kindIds ++ [id node]) (kindIndex p)
        else kindIndex p
    | None => kindIndex p
    end in
  {| index := index1; nameIndex := nameIndex1; pathIndex := pathIndex1;
     kindIndex := kindIndex1; doc := doc p; docPath := docPath p |}.

Fixpoint buildIndex (node : Reflection) (parentPath : string)
    (p : TypeDocParser) {struct node} : TypeDocParser :=
  let path := fullPath parentPath (name node) in
  let p1 := indexNode node path p in
  let each :=
    fix each (l : list Reflection) (q : TypeDocParser) {struct l}
        : TypeDocParser :=
      match l with
      | [] => q
      | c :: l' => each l' (buildIndex c path q)
      end in
  match node with
  | mkReflection _ _ _ _ cs sigs =>
      let p2 := match cs with Some l => each l p1 | None => p1 end in
      match sigs with Some l => each l p2 | None => p2 end
  end.

(** ** Loading *)

(** What [fs.readFile] followed by [JSON.parse] hands to [parse]: the
    read or the JSON syntax fails (the error propagates before [doc] is
    assigned), the text denotes a falsy JSON value, or it denotes a
    document tree.  A document tree has the shape of [Reflection]:
    [children] and [signatures], where present, are arrays of objects.
    A text that is JSON of another shape (a null among the children,
    say), on which [buildIndex] itself raises once it has indexed some
    nodes, is no value of this type; what is stated of a failed load
    below names the two failures that are. *)
Inductive Source : Type :=
| Unreadable (error : string)
| Falsy
| Document (root : Reflection).

Inductive Completion (A : Type) : Type :=
| Normal (value : A)
| Throw (message : string).
Arguments Normal {A} value.
Arguments Throw {A} message.

Definition parse (content : Source) (p : TypeDocParser)
    : TypeDocParser * Completion unit :=
  match content with
  | Unreadable error => (p, Throw error)
  | Falsy =>
      ({| index := index p; nameIndex := nameIndex p;
          pathIndex := pathIndex p; kindIndex := kindIndex p;
          doc := None; docPath := docPath p |},
       Throw "Failed to parse TypeDoc JSON")
  | Document root =>
      let p1 := {| index := index p; nameIndex := nameIndex p;
                   pathIndex := pathIndex p; kindIndex := kindIndex p;
                   doc := Some root; docPath := docPath p |} in
      (buildIndex root "" p1, Normal tt)
  end.

(** ** Queries *)

Module ParsedSymbol.
Record t : Type := mk {
  id : Z;
  name : string;
  kind : string;
  path : string;
  reflection : Reflection
}.
End ParsedSymbol.

(** The loop of [getPath] over the entries of the path index. *)
Fixpoint getPath_scan (entries : list (string * Z)) (rid : Z)
    : option string :=
  match entries with
  | [] => None
  | (path, i) :: rest => if i =? rid then Some path else getPath_scan rest rid
  end.

Definition getPath (p : TypeDocParser) (reflection : Reflection) : string :=
  match getPath_scan (pathIndex p) (id reflection) with
  | Some path => path
  | None => name reflection
  end.

Definition kindMap : JsMap.t Z string :=
  [ (ReflectionKind_Module, "Module");
    (ReflectionKind_Namespace, "Namespace");
    (ReflectionKind_Enum, "Enum");
    (ReflectionKind_Variable, "Variable");
    (ReflectionKind_Function, "Function");
    (ReflectionKind_Class, "Class");
    (ReflectionKind_Interface, "Interface");
    (ReflectionKind_Constructor, "Constructor");
    (ReflectionKind_Property, "Property");
    (ReflectionKind_Method, "Method");
    (ReflectionKind_TypeAlias, "Type alias") ].

Definition getKindString (kind : option Z) : string :=
  match kind with
  | Some k =>
      match JsMap.get k kindMap with
      | Some s => s
      | None => "Unknown"
      end
  | None => "Unknown"
  end.

Definition createParsedSymbol (p : TypeDocParser) (reflection : Reflection)
    : ParsedSymbol.t :=
  let path := getPath p reflection in
  {| ParsedSymbol.id := id reflection;
     ParsedSymbol.name := name reflection;
     ParsedSymbol.kind :=
       match kindString reflection with
       | Some s =>
           if truthy_string s then s else getKindString (kind reflection)
       | None => getKindString (kind reflection)
       end;
     ParsedSymbol.path := path;
     ParsedSymbol.reflection := reflection |}.

(** The loop [for (const id of ids)] that [findByName] (twice) and
    [findByKind] share: ids missing from the main index are skipped. *)
Fixpoint resolveIds (p : TypeDocParser) (ids : list Z)
    : list ParsedSymbol.t :=
  match ids with
  | [] => []
  | i :: rest =>
      match JsMap.get i (index p) with
      | Some reflection => createParsedSymbol p reflection :: resolveIds p rest
      | None => resolveIds p rest
      end
  end.

(** [s.includes(sub)]. *)
Fixpoint includes (s sub : string) : bool :=
  String.prefix sub s ||
  match s with
  | EmptyString => false
  | String _ s' => includes s' sub
  end.

(** [String.prototype.toLowerCase] on strings of 7-bit characters. *)
Definition ascii_toLowerCase_char (c : ascii) : ascii :=
  let n := nat_of_ascii c in
  if ((65 <=? n) && (n <=? 90))%nat then ascii_of_nat (n + 32) else c.

Fixpoint ascii_toLowerCase (s : string) : string :=
  match s with
  | EmptyString => EmptyString
  | String c s' => String (ascii_toLowerCase_char c) (ascii_toLowerCase s')
  end.

(** Strings of 7-bit characters, on which [toLowerCase] is the mapping
    above. *)
Definition asciiOnly_char (c : ascii) : bool := (nat_of_ascii c <? 128)%nat.

Fixpoint asciiOnly (s : string) : bool :=
  match s with
  | EmptyString => true
  | String c s' => asciiOnly_char c && asciiOnly s'
  end.

(** Two characters that are the same, or the upper-case and the
    lower-case form of one letter; two strings that are so character by
    character. *)
Definition isUpperCode (n : nat) : bool := ((65 <=? n) && (n <=? 90))%nat.

Definition sameLetter (c d : ascii) : bool :=
  let n := nat_of_ascii c in
  let m := nat_of_ascii d in
  ((n =? m) || (isUpperCode n && (m =? n + 32)) ||
   (isUpperCode m && (n =? m + 32)))%nat.

Fixpoint sameUpToCase (s t : string) : bool :=
  match s, t with
  | EmptyString, EmptyString => true
  | String c s', String d t' => sameLetter c d && sameUpToCase s' t'
  | _, _ => false
  end.

Record Stats : Type := mkStats {
  total : nat;
  classes : nat;
  interfaces : nat;
  functions : nat;
  variables : nat;
  types : nat;
  enums : nat;
  modules : nat
}.

(** [m.get(k)?.length || 0]. *)
Definition length_or_zero (o : option (list Z)) : nat :=
  match o with Some l => List.length l | None => 0%nat end.

Inductive Query : Type :=
| GetById (i : Z)
| FindByName (name : string) (exact : bool)
| FindByPath (path : string)
| FindByKind (kind : Z)
| GetStats.

Inductive Answer : Type :=
| AReflection (r : option Reflection)
| ASymbol (s : option ParsedSymbol.t)
| ASymbols (l : list ParsedSymbol.t)
| AStats (s : Stats).

Section Methods.

(** The case mapping of the host's strings is taken as given: the
    parser only ever applies it to both sides of [includes]. *)
Variable toLowerCase : string -> string.

Definition findByName (name : string) (exact : bool) (p : TypeDocParser)
    : list ParsedSymbol.t :=
  if exact then
    resolveIds p (or_empty (JsMap.get name (nameIndex p)))
  else
    flat_map
      (fun entry : string * list Z =>
         let (symbolName, ids) := entry in
         if includes (toLowerCase symbolName) (toLowerCase name)
         then resolveIds p ids else [])
      (nameIndex p).

Definition findByPath (path : string) (p : TypeDocParser)
    : option ParsedSymbol.t :=
  match JsMap.get path (pathIndex p) with
  | None => None
  | Some i =>
      if truthy_number i then
        match JsMap.get i (index p) with
        | None => None
        | Some reflection => Some (createParsedSymbol p reflection)
        end
      else None
  end.

Definition findByKind (kind : Z) (p : TypeDocParser) : list ParsedSymbol.t :=
  resolveIds p (or_empty (JsMap.get kind (kindIndex p))).

Definition getById (i : Z) (p : TypeDocParser) : option Reflection :=
  JsMap.get i (index p).

Definition getStats (p : TypeDocParser) : Stats :=
  {| total := JsMap.size (index p);
     classes := length_or_zero (JsMap.get ReflectionKind_Class (kindIndex p));
     interfaces :=
       length_or_zero (JsMap.get ReflectionKind_Interface (kindIndex p));
     functions :=
       length_or_zero (JsMap.get ReflectionKind_Function (kindIndex p));
     variables :=
       length_or_zero (JsMap.get ReflectionKind_Variable (kindIndex p));
     types := length_or_zero (JsMap.get ReflectionKind_TypeAlias (kindIndex p));
     enums := length_or_zero (JsMap.get ReflectionKind_Enum (kindIndex p));
     modules := length_or_zero (JsMap.get ReflectionKind_Module (kindIndex p))
  |}.

(** One call of a query method, with the way it completes.  None of the
    five bodies contains a [throw]. *)
Definition call (p : TypeDocParser) (q : Query) : Completion Answer :=
  match q with
  | GetById i => Normal (AReflection (getById i p))
  | FindByName name exact => Normal (ASymbols (findByName name exact p))
  | FindByPath path => Normal (ASymbol (findByPath path p))
  | FindByKind kind => Normal (ASymbols (findByKind kind p))
  | GetStats => Normal (AStats (getStats p))
  end.

End Methods.

(** ** The traversal as a list

    [walk node parentPath] lists the calls of [buildIndex] in the order
    they happen, each node with the path it is given: the node itself,
    then its children, then its signatures, the last two under the
    node's own path. *)

Fixpoint walk (node : Reflection) (parentPath : string) {struct node}
    : list (Reflection * string) :=
  let path := fullPath parentPath (name node) in
  let each :=
    fix each (l : list Reflection) {struct l} : list (Reflection * string) :=
      match l with
      | [] => []
      | c :: l' => walk c path ++ each l'
      end in
  match node with
  | mkReflection _ _ _ _ cs sigs =>
      (node, path)
        :: match cs with Some l => each l | None => [] end
        ++ match sigs with Some l => each l | None => [] end
  end.

Definition indexAll (visits : list (Reflection * string))
    (p : TypeDocParser) : TypeDocParser :=
  fold_left (fun q visit => indexNode (fst visit) (snd visit) q) visits p.

(** The nodes of a document in traversal order, and the parser a fresh
    instance becomes once [parse] has read the document. *)
Definition visits (root : Reflection) : list (Reflection * string) :=
  walk root "".

Definition nodes (root : Reflection) : list Reflection :=
  map fst (visits root).

Definition loaded (root : Reflection) : TypeDocParser :=
  fst (parse (Document root) (TypeDocParser_new "typedoc.json")).

(** The data model's condition on ids. *)
Definition unique_ids (root : Reflection) : Prop :=
  NoDup (map id (nodes root)).

Definition positive_ids (root : Reflection) : Prop :=
  Forall (fun n => 0 < id n) (nodes root).

(** The last visit, if any, that was given a path. *)
Fixpoint lastAt (path : string) (l : list (Reflection * string))
    : option Reflection :=
  match l with
  | [] => None
  | (n, q) :: l' =>
      match lastAt path l' with
      | Some m => Some m
      | None => if String.eqb path q then Some n else None
      end
  end.

Definition hasName (k : string) (n : Reflection) : bool :=
  String.eqb (name n) k.

Definition hasKind (k : Z) (n : Reflection) : bool :=
  match kind n with
  | Some k' => truthy_number k' && (k' =? k)
  | None => false
  end.

Definition kindPresent (n : Reflection) : bool :=
  match kind n with Some _ => true | None => false end.

(** Sum of the bucket sizes of a map of id lists. *)
Definition bucketTotal {K : Type} (m : JsMap.t K (list Z)) : nat :=
  fold_right (fun entry acc => (List.length (snd entry) + acc)%nat) 0%nat m.

(** ** Views of the indexing pass used to state its properties *)

(** The update each index receives for one visit. *)
Definition indexStep (m : JsMap.t Z Reflection) (visit : Reflection * string) :=
  JsMap.set (id (fst visit)) (fst visit) m.

Definition pathStep (m : JsMap.t string Z) (visit : Reflection * string) :=
  JsMap.set (snd visit) (id (fst visit)) m.

Definition nameStep (m : JsMap.t string (list Z)) (visit : Reflection * string) :=
  JsMap.set (name (fst visit))
    (or_empty (JsMap.get (name (fst visit)) m) ++ [id (fst visit)]) m.

Definition kindStep (m : JsMap.t Z (list Z)) (visit : Reflection * string) :=
  match kind (fst visit) with
  | Some k =>
      if truthy_number k
      then JsMap.set k (or_empty (JsMap.get k m) ++ [id (fst visit)]) m
      else m
  | None => m
  end.

(** Reachability from the root along [children] and [signatures]. *)
Inductive reachable (root : Reflection) : Reflection -> Prop :=
| reach_root : reachable root root
| reach_child n l c :
    reachable root n -> children n = Some l -> In c l -> reachable root c
| reach_signature n l c :
    reachable root n -> signatures n = Some l -> In c l -> reachable root c.

(** [kind] is present and equal to [k]. *)
Definition kindIs (k : Z) (n : Reflection) : bool :=
  match kind n with Some k' => k' =? k | None => false end.

(** A fresh parser after one call of [parse]. *)
Definition afterParse (content : Source) (docPath : string) : TypeDocParser :=
  fst (parse content (TypeDocParser_new docPath)).

(** ** Negative answers *)

Definition noStats : Stats := mkStats 0 0 0 0 0 0 0 0.

(** What each query answers on empty indices. *)
Definition emptyAnswer (q : Query) : Answer :=
  match q with
  | GetById _ => AReflection None
  | FindByName _ _ => ASymbols []
  | FindByPath _ => ASymbol None
  | FindByKind _ => ASymbols []
  | GetStats => AStats noStats
  end.

(** The entries carried by an answer. *)
Definition entriesOf (a : Answer) : list ParsedSymbol.t :=
  match a with
  | ASymbol (Some s) => [s]
  | ASymbols l => l
  | _ => []
  end.

(** ** The documents of the specification's scenarios *)

Definition leaf (i : Z) (n : string) (k : Z) : Reflection :=
  mkReflection i n (Some k) None None None.

(** [Lib] with class [Widget] and its method [render]. *)
Definition libTree : Reflection :=
  mkReflection 1 "Lib" (Some 2) None
    (Some [mkReflection 2 "Widget" (Some 128) None
             (Some [leaf 3 "render" 2048]) None])
    None.

(** Two children of [Lib] that are both named [Widget]. *)
Definition clashTree : Reflection :=
  mkReflection 1 "Lib" (Some 2) None
    (Some [leaf 2 "Widget" 128; leaf 3 "Widget" 256]) None.

(** ** Induction over a document tree *)

Definition allOf (P : Reflection -> Prop) (o : option (list Reflection))
    : Prop :=
  match o with Some l => Forall P l | None => True end.

Section ReflectionInduction.
Variable P : Reflection -> Prop.
Hypothesis step : forall i n k ks cs sigs,
  allOf P cs -> allOf P sigs -> P (mkReflection i n k ks cs sigs).

Fixpoint Reflection_tree_ind (r : Reflection) : P r :=
  let all :=
    fix all (l : list Reflection) : Forall P l :=
      match l with
      | [] => Forall_nil P
      | c :: l' => Forall_cons c (Reflection_tree_ind c) (all l')
      end in
  match r with
  | mkReflection i n k ks cs sigs =>
      step i n k ks cs sigs
        (match cs as o return allOf P o with Some l => all l | None => I end)
        (match sigs as o return allOf P o with Some l => all l | None => I end)
  end.
End ReflectionInduction.

(** ** Further views of a loaded parser *)

(** The last node of a list that carries an id. *)
Fixpoint lastWithId (i : Z) (l : list Reflection) : option Reflection :=
  match l with
  | [] => None
  | n :: l' =>
      match lastWithId i l' with
      | Some m => Some m
      | None => if id n =? i then Some n else None
      end
  end.

(** The distinct strings of a list, in order of first occurrence. *)
Definition addFirst (seen : list string) (k : string) : list string :=
  if existsb (String.eqb k) seen then seen else seen ++ [k].

Definition firstOccurrences (l : list string) : list string :=
  fold_left addFirst l [].

(** A loaded parser on which [parse] is called once more with the same
    document. *)
Definition reloaded (root : Reflection) : TypeDocParser :=
  fst (parse (Document root) (loaded root)).

(** * The callers of the parser

    The tools and the resource of the server that read a parser:
    [getProjectInfo] (parser), [formatReadme] and [getProjectOverview]
    (resources/overview.ts), [findSymbol], [searchByTag] and
    [getDocumentation] (tools), [ensureParserLoaded] and [parseArgs]
    (index.ts). *)

Module CommentDisplayPart.
Record t : Type := mk { kind : string; text : string }.
End CommentDisplayPart.

Module CommentTag.
Record t : Type := mk { tag : string; content : list CommentDisplayPart.t }.
End CommentTag.

Module Comment.
Record t : Type := mk {
  summary : option (list CommentDisplayPart.t);
  blockTags : option (list CommentTag.t)
}.
End Comment.

(** The interface [Source] of typedoc.ts: a location in a source file. *)
Module SourceRef.
Record t : Type := mk { fileName : string; line : Z; url : option string }.
End SourceRef.

(** [parts.map(p => p.text).join('')]. *)
Definition joinText (parts : list CommentDisplayPart.t) : string :=
  String.concat "" (map CommentDisplayPart.text parts).

(** [s.startsWith(prefix)]. *)
Definition startsWith (s prefix : string) : bool := String.prefix prefix s.

Definition formatReadme (readme : list CommentDisplayPart.t) (maxLength : Z)
    : string :=
  let fullText := joinText readme in
  if Z.of_nat (String.length fullText) >? maxLength
  then (String.substring 0 (Z.to_nat maxLength) fullText ++ "...")%string
  else fullText.

Module ProjectInfo.
Record t : Type := mk {
  name : string;
  version : option string;
  readme : option (list CommentDisplayPart.t)
}.
End ProjectInfo.

Module OverviewStats.
Record t : Type := mk {
  totalSymbols : nat;
  modules : nat;
  classes : nat;
  interfaces : nat;
  functions : nat;
  types : nat;
  enums : nat;
  variables : nat
}.
End OverviewStats.

Module Overview.
Record content : Type := mkContent {
  name : string;
  version : option string;
  description : option string;
  stats : OverviewStats.t
}.
Record t : Type := mk {
  uri : string;
  resourceName : string;
  mimeType : string;
  body : content
}.
End Overview.

(** The overview of a parser that holds no document. *)
Definition noOverview : Overview.content :=
  {| Overview.name := "Unknown Project";
     Overview.version := None;
     Overview.description := None;
     Overview.stats := OverviewStats.mk 0 0 0 0 0 0 0 0 |}.

(** The kinds [findSymbol] accepts as a filter, and its [kindMap]. *)
Inductive KindName : Type :=
| kind_class | kind_interface | kind_function | kind_type | kind_enum
| kind_variable.

Definition findSymbol_kindMap (k : KindName) : Z :=
  match k with
  | kind_class => ReflectionKind_Class
  | kind_interface => ReflectionKind_Interface
  | kind_function => ReflectionKind_Function
  | kind_type => ReflectionKind_TypeAlias
  | kind_enum => ReflectionKind_Enum
  | kind_variable => ReflectionKind_Variable
  end.

Module FindSymbolParams.
Record t : Type := mk {
  name : string;
  kind : option KindName;
  exact : option bool
}.
End FindSymbolParams.

Module FoundSymbol.
Record t : Type := mk {
  name : string;
  kind : string;
  path : string;
  id : Z;
  source : option (string * Z)
}.
End FoundSymbol.

Module SearchByTagParams.
Record t : Type := mk { tag : string; value : option string }.
End SearchByTagParams.

Module TaggedSymbol.
Record t : Type := mk {
  name : string;
  kind : string;
  path : string;
  tagValue : string;
  source : option (string * Z)
}.
End TaggedSymbol.

Module GetDocumentationParams.
Record t : Type := mk { symbolId : option Z; symbolPath : option string }.
End GetDocumentationParams.

Module ServerConfig.
Record t : Type := mk {
  docPath : option string;
  projectPath : option string;
  serverName : option string
}.
End ServerConfig.

Module Server.
Record t : Type := mk {
  parser : option TypeDocParser;
  config : ServerConfig.t
}.
End Server.

Module ParsedArgs.
Record t : Type := mk {
  docPath : option string;
  projectPath : option string;
  serverName : option string;
  help : bool
}.
End ParsedArgs.

Section Callers.

(** The fields of a reflection that [TypeDocParser] never reads are no
    part of [Reflection]; the callers read them through these
    accessors. *)
Variable comment : Reflection -> option Comment.t.
Variable sources : Reflection -> option (list SourceRef.t).
Variable packageVersion : Reflection -> option string.
Variable readme : Reflection -> option (list CommentDisplayPart.t).

(** [String.prototype.toLowerCase] and [String.prototype.trim]. *)
Variable toLowerCase : string -> string.
Variable trim : string -> string.

Definition getProjectInfo (p : TypeDocParser) : option ProjectInfo.t :=
  match doc p with
  | None => None
  | Some d =>
      Some {| ProjectInfo.name := name d;
              ProjectInfo.version := packageVersion d;
              ProjectInfo.readme := readme d |}
  end.

Definition getProjectOverview (p : TypeDocParser) : Overview.t :=
  let info := getProjectInfo p in
  let stats := getStats p in
  {| Overview.uri := "typedoc://overview";
     Overview.resourceName := "Project Overview";
     Overview.mimeType := "application/json";
     Overview.body :=
       {| Overview.name :=
            match info with
            | Some i =>
                if truthy_string (ProjectInfo.name i) then ProjectInfo.name i
                else "Unknown Project"
            | None => "Unknown Project"
            end;
          Overview.version :=
            match info with Some i => ProjectInfo.version i | None => None end;
          Overview.description :=
            match info with
            | Some i =>
                match ProjectInfo.readme i with
                | Some r => Some (formatReadme r 500)
                | None => None
                end
            | None => None
            end;
          Overview.stats :=
            {| OverviewStats.totalSymbols := total stats;
               OverviewStats.modules := modules stats;
               OverviewStats.classes := classes stats;
               OverviewStats.interfaces := interfaces stats;
               OverviewStats.functions := functions stats;
               OverviewStats.types := types stats;
               OverviewStats.enums := enums stats;
               OverviewStats.variables := variables stats |} |} |}.

(** [reflection.sources?.[0] ? { fileName, line } : undefined]. *)
Definition firstSource (r : Reflection) : option (string * Z) :=
  match sources r with
  | Some (s :: _) => Some (SourceRef.fileName s, SourceRef.line s)
  | _ => None
  end.

Definition summarize (s : ParsedSymbol.t) : FoundSymbol.t :=
  {| FoundSymbol.name := ParsedSymbol.name s;
     FoundSymbol.kind := ParsedSymbol.kind s;
     FoundSymbol.path := ParsedSymbol.path s;
     FoundSymbol.id := ParsedSymbol.id s;
     FoundSymbol.source := firstSource (ParsedSymbol.reflection s) |}.

(** [findSymbol]; the result object has the one field [symbols]. *)
Definition findSymbol (p : TypeDocParser) (params : FindSymbolParams.t)
    : list FoundSymbol.t :=
  let exact :=
    match FindSymbolParams.exact params with Some b => b | None => true end in
  let symbols := findByName toLowerCase (FindSymbolParams.name params) exact p in
  let symbols :=
    match FindSymbolParams.kind params with
    | Some k =>
        if (0 <? Z.of_nat (List.length symbols)) then
          let targetKind := findSymbol_kindMap k in
          filter (fun s => kindIs targetKind (ParsedSymbol.reflection s))
                 symbols
        else symbols
    | None => symbols
    end in
  map summarize symbols.

(** One turn of the loop of [searchByTag]: the result pushed for a
    reflection, if any. *)
Definition searchByTag_visit (p : TypeDocParser) (tagName : string)
    (value : option string) (reflection : Reflection)
    : option TaggedSymbol.t :=
  match comment reflection with
  | None => None
  | Some c =>
      match Comment.blockTags c with
      | None => None
      | Some tags =>
          match find (fun t => String.eqb (CommentTag.tag t) tagName) tags with
          | None => None
          | Some matchingTag =>
              let tagContent := trim (joinText (CommentTag.content matchingTag)) in
              if match value with
                 | Some v => truthy_string v && negb (includes tagContent v)
                 | None => false
                 end
              then None
              else
                Some {| TaggedSymbol.name := name reflection;
                        TaggedSymbol.kind :=
                          match kindString reflection with
                          | Some s =>
                              if truthy_string s then s
                              else getKindString (kind reflection)
                          | None => getKindString (kind reflection)
                          end;
                        TaggedSymbol.path := getPath p reflection;
                        TaggedSymbol.tagValue := tagContent;
                        TaggedSymbol.source := firstSource reflection |}
          end
      end
  end.

(** [searchByTag]; the result object has the one field [symbols]. *)
Definition searchByTag (p : TypeDocParser) (params : SearchByTagParams.t)
    : list TaggedSymbol.t :=
  let tagName :=
    if startsWith (SearchByTagParams.tag params) "@"
    then SearchByTagParams.tag params
    else ("@" ++ SearchByTagParams.tag params)%string in
  flat_map
    (fun entry : Z * Reflection =>
       match searchByTag_visit p tagName (SearchByTagParams.value params)
               (snd entry) with
       | Some result => [result]
       | None => []
       end)
    (index p).

(** The answer [getDocumentation] assembles once it holds a reflection
    (its name, kind, description, examples, parameters, return type,
    tags, access and source) is computed from that reflection alone. *)
Variable Documentation : Type.
Variable assembleDocumentation : Reflection -> Documentation.

Definition getDocumentation (p : TypeDocParser)
    (params : GetDocumentationParams.t) : Completion Documentation :=
  match GetDocumentationParams.symbolId params,
        GetDocumentationParams.symbolPath params with
  | None, None => Throw "Either symbolId or symbolPath must be provided"
  | symbolId, symbolPath =>
      let reflection :=
        match symbolId with
        | Some i => getById i p
        | None =>
            match symbolPath with
            | Some path =>
                if truthy_string path then
                  match findByPath path p with
                  | Some symbol => Some (ParsedSymbol.reflection symbol)
                  | None => None
                  end
                else None
            | None => None
            end
        end in
      match reflection with
      | None => Throw "Symbol not found"
      | Some r => Normal (assembleDocumentation r)
      end
  end.

(** The file system as [ensureParserLoaded] sees it: whether
    [fs.access] succeeds on a path, what reading and parsing the file
    at a path gives, and [path.join]. *)
Variable access : string -> bool.
Variable readDocument : string -> Source.
Variable path_join : list string -> string.

Definition possiblePaths (projectPath : string) : list string :=
  [ path_join [projectPath; "docs"; "typedoc.json"];
    path_join [projectPath; "documentation"; "typedoc.json"];
    path_join [projectPath; "typedoc.json"] ].

Definition ensureParserLoaded (s : Server.t) : Server.t * bool :=
  let s1 :=
    match Server.parser s with
    | Some _ => s
    | None =>
        match ServerConfig.projectPath (Server.config s) with
        | Some projectPath =>
            if truthy_string projectPath then
              match find access (possiblePaths projectPath) with
              | Some found =>
                  {| Server.parser := Some (TypeDocParser_new found);
                     Server.config :=
                       {| ServerConfig.docPath := Some found;
                          ServerConfig.projectPath :=
                            ServerConfig.projectPath (Server.config s);
                          ServerConfig.serverName :=
                            ServerConfig.serverName (Server.config s) |} |}
              | None => s
              end
            else s
        | None => s
        end
    end in
  match Server.parser s1 with
  | None => (s1, false)
  | Some p =>
      if (0 <? Z.of_nat (total (getStats p))) then (s1, true)
      else
        let (p', completion) := parse (readDocument (docPath p)) p in
        ({| Server.parser := Some p'; Server.config := Server.config s1 |},
         match completion with Normal _ => true | Throw _ => false end)
  end.

End Callers.

(** The loop of [parseArgs]: a flag that takes a value consumes the
    next argument, and takes [undefined] when there is none. *)
Fixpoint parseArgs_loop (args : list string) (acc : ParsedArgs.t)
    {struct args} : ParsedArgs.t :=
  match args with
  | [] => acc
  | a :: rest =>
      if String.eqb a "--doc-path" || String.eqb a "-d" then
        match rest with
        | v :: rest' =>
            parseArgs_loop rest'
              {| ParsedArgs.docPath := Some v;
                 ParsedArgs.projectPath := ParsedArgs.projectPath acc;
                 ParsedArgs.serverName := ParsedArgs.serverName acc;
                 ParsedArgs.help := ParsedArgs.help acc |}
        | [] =>
            {| ParsedArgs.docPath := None;
               ParsedArgs.projectPath := ParsedArgs.projectPath acc;
               ParsedArgs.serverName := ParsedArgs.serverName acc;
               ParsedArgs.help := ParsedArgs.help acc |}
        end
      else if String.eqb a "--project-path" || String.eqb a "-p" then
        match rest with
        | v :: rest' =>
            parseArgs_loop rest'
              {| ParsedArgs.docPath := ParsedArgs.docPath acc;
                 ParsedArgs.projectPath := Some v;
                 ParsedArgs.serverName := ParsedArgs.serverName acc;
                 ParsedArgs.help := ParsedArgs.help acc |}
        | [] =>
            {| ParsedArgs.docPath := ParsedArgs.docPath acc;
               ParsedArgs.projectPath := None;
               ParsedArgs.serverName := ParsedArgs.serverName acc;
               ParsedArgs.help := ParsedArgs.help acc |}
        end
      else if String.eqb a "--name" || String.eqb a "-n" then
        match rest with
        | v :: rest' =>
            parseArgs_loop rest'
              {| ParsedArgs.docPath := ParsedArgs.docPath acc;
                 ParsedArgs.projectPath := ParsedArgs.projectPath acc;
                 ParsedArgs.serverName := Some v;
                 ParsedArgs.help := ParsedArgs.help acc |}
        | [] =>
            {| ParsedArgs.docPath := ParsedArgs.docPath acc;
               ParsedArgs.projectPath := ParsedArgs.projectPath acc;
               ParsedArgs.serverName := None;
               ParsedArgs.help := ParsedArgs.help acc |}
        end
      else if String.eqb a "--help" || String.eqb a "-h" then
        parseArgs_loop rest
          {| ParsedArgs.docPath := ParsedArgs.docPath acc;
             ParsedArgs.projectPath := ParsedArgs.projectPath acc;
             ParsedArgs.serverName := ParsedArgs.serverName acc;
             ParsedArgs.help := true |}
      else parseArgs_loop rest acc
  end.

Definition parseArgs (args : list string) : ParsedArgs.t :=
  parseArgs_loop args
    {| ParsedArgs.docPath := None; ParsedArgs.projectPath := None;
       ParsedArgs.serverName := None; ParsedArgs.help := false |}.

Definition isFlag (a : string) : bool :=
  existsb (String.eqb a)
    ["--doc-path"; "-d"; "--project-path"; "-p"; "--name"; "-n";
     "--help"; "-h"].

(** The tag name [searchByTag] looks for: the parameter, with an [@]
    put before it unless it has one. *)
Definition normalizedTag (tag : string) : string :=
  if startsWith tag "@" then tag else ("@" ++ tag)%string.

Definition optionList {A : Type} (o : option A) : list A :=
  match o with Some a => [a] | None => [] end.

(** ** Facts about insertion-ordered maps *)

Section JsMapFacts.
Context {K V : Type} `{KeyEq K}.
Implicit Types (m : JsMap.t K V) (k : K) (v : V).

Lemma key_eqb_refl k : key_eqb k k = true.
Proof. destruct (key_eqb_spec k k); congruence. Qed.

Lemma key_eqb_neq k k' : k <> k' -> key_eqb k k' = false.
Proof. destruct (key_eqb_spec k k'); congruence. Qed.

Lemma get_set_same k v m : JsMap.get k (JsMap.set k v m) = Some v.
Proof.
  induction m as [|[k' v'] m IH]; simpl.
  - now rewrite key_eqb_refl.
  - destruct (key_eqb_spec k k') as [->|Hne]; simpl.
    + now rewrite key_eqb_refl.
    + now rewrite (key_eqb_neq _ _ Hne).
Qed.

Lemma get_set_other k k' v m :
  k <> k' -> JsMap.get k (JsMap.set k' v m) = JsMap.get k m.
Proof.
  intros Hne. induction m as [|[k0 v0] m IH]; simpl.
  - now rewrite (key_eqb_neq _ _ Hne).
  - destruct (key_eqb_spec k' k0) as [->|Hne0]; simpl.
    + now rewrite (key_eqb_neq _ _ Hne).
    + now rewrite IH.
Qed.

Lemma get_In k v m : JsMap.get k m = Some v -> In (k, v) m.
Proof.
  induction m as [|[k' v'] m IH]; simpl; [discriminate|].
  destruct (key_eqb_spec k k') as [->|Hne].
  - intros [= ->]. now left.
  - intros Hg. right. now apply IH.
Qed.

Lemma get_None_keys k m : JsMap.get k m = None <-> ~ In k (JsMap.keys m).
Proof.
  induction m as [|[k' v'] m IH]; simpl.
  - tauto.
  - destruct (key_eqb_spec k k') as [->|Hne].
    + split; [discriminate | intros Hn; exfalso; apply Hn; now left].
    + rewrite IH. split.
      * intros Hn [He|Hi]; [congruence | tauto].
      * tauto.
Qed.

Lemma In_get k v m : NoDup (JsMap.keys m) -> In (k, v) m -> JsMap.get k m = Some v.
Proof.
  induction m as [|[k' v'] m IH]; simpl; [tauto|].
  intros Hnd [He|Hi].
  - injection He as -> ->. now rewrite key_eqb_refl.
  - inversion Hnd as [|? ? Hni Hnd']; subst.
    destruct (key_eqb_spec k k') as [->|Hne].
    + exfalso. apply Hni. change (In (fst (k', v)) (map fst m)).
      now apply in_map.
    + now apply IH.
Qed.

Lemma set_fresh k v m : JsMap.get k m = None -> JsMap.set k v m = m ++ [(k, v)].
Proof.
  induction m as [|[k' v'] m IH]; simpl; [reflexivity|].
  destruct (key_eqb_spec k k'); [discriminate|].
  intros Hg. now rewrite IH.
Qed.

Lemma keys_set_present k v m :
  JsMap.get k m <> None -> JsMap.keys (JsMap.set k v m) = JsMap.keys m.
Proof.
  induction m as [|[k' v'] m IH]; simpl; [congruence|].
  destruct (key_eqb_spec k k'); simpl; [reflexivity|].
  intros Hg. now rewrite IH.
Qed.

Lemma keys_set_NoDup k v m :
  NoDup (JsMap.keys m) -> NoDup (JsMap.keys (JsMap.set k v m)).
Proof.
  intros Hnd. destruct (JsMap.get k m) eqn:Hg.
  - rewrite keys_set_present; [assumption | congruence].
  - rewrite (set_fresh _ v _ Hg). unfold JsMap.keys. rewrite map_app. simpl.
    apply NoDup_app; [assumption | repeat constructor; simpl; tauto |].
    intros x Hx [<-|[]]. now apply get_None_keys in Hg.
Qed.

Lemma get_app k m1 m2 :
  JsMap.get k (m1 ++ m2) =
  match JsMap.get k m1 with Some v => Some v | None => JsMap.get k m2 end.
Proof.
  induction m1 as [|[k' v'] m1 IH]; simpl; [reflexivity|].
  now destruct (key_eqb k k').
Qed.

End JsMapFacts.

(** ** [buildIndex] is [indexNode] folded over the traversal *)

Lemma indexAll_app l1 l2 p :
  indexAll (l1 ++ l2) p = indexAll l2 (indexAll l1 p).
Proof. unfold indexAll. apply fold_left_app. Qed.

Lemma buildIndex_walk node :
  forall parentPath p,
    buildIndex node parentPath p = indexAll (walk node parentPath) p.
Proof.
  induction node as [i n k ks cs sigs IHc IHs] using Reflection_tree_ind.
  intros parentPath p. cbn [buildIndex walk name].
  set (path := fullPath parentPath n).
  set (node := mkReflection i n k ks cs sigs).
  set (eachB := fix each (l : list Reflection) (q : TypeDocParser) {struct l}
                  : TypeDocParser :=
                  match l with
                  | [] => q
                  | c :: l' => each l' (buildIndex c path q)
                  end).
  set (eachW := fix each (l : list Reflection) {struct l}
                  : list (Reflection * string) :=
                  match l with
                  | [] => []
                  | c :: l' => walk c path ++ each l'
                  end).
  assert (Heach : forall l, Forall (fun c => forall pp q,
                     buildIndex c pp q = indexAll (walk c pp) q) l ->
                   forall q, eachB l q = indexAll (eachW l) q).
  { induction 1 as [|c l Hc _ IH]; intros q; simpl; [reflexivity|].
    now rewrite indexAll_app, Hc, IH. }
  change (indexAll ((node, path) :: ?l) p) with (indexAll l (indexNode node path p)).
  rewrite indexAll_app.
  destruct cs as [lc|], sigs as [ls|]; simpl in IHc, IHs;
    rewrite ?Heach by assumption; reflexivity.
Qed.

Lemma loaded_indexAll root :
  loaded root =
  indexAll (visits root)
    {| index := JsMap.empty; nameIndex := JsMap.empty;
       pathIndex := JsMap.empty; kindIndex := JsMap.empty;
       doc := Some root; docPath := "typedoc.json" |}.
Proof. unfold loaded, parse, visits. cbn [fst]. apply buildIndex_walk. Qed.

(** ** The four indices, one at a time *)

Lemma index_indexAll l : forall p,
  index (indexAll l p) = fold_left indexStep l (index p).
Proof. induction l as [|x l IH]; intros p; simpl; [reflexivity | now rewrite IH]. Qed.

Lemma pathIndex_indexAll l : forall p,
  pathIndex (indexAll l p) = fold_left pathStep l (pathIndex p).
Proof. induction l as [|x l IH]; intros p; simpl; [reflexivity | now rewrite IH]. Qed.

Lemma nameIndex_indexAll l : forall p,
  nameIndex (indexAll l p) = fold_left nameStep l (nameIndex p).
Proof. induction l as [|x l IH]; intros p; simpl; [reflexivity | now rewrite IH]. Qed.

Lemma kindIndex_indexAll l : forall p,
  kindIndex (indexAll l p) = fold_left kindStep l (kindIndex p).
Proof.
  induction l as [|x l IH]; intros p; simpl; [reflexivity | now rewrite IH].
Qed.

(** *** The main index *)

Lemma index_fold_fresh l : forall m,
  (forall x, In x l -> JsMap.get (id (fst x)) m = None) ->
  NoDup (map (fun x => id (fst x)) l) ->
  fold_left indexStep l m = m ++ map (fun x => (id (fst x), fst x)) l.
Proof.
  induction l as [|x l IH]; intros m Hfresh Hnd; simpl.
  - now rewrite app_nil_r.
  - inversion Hnd as [|? ? Hni Hnd']; subst.
    unfold indexStep at 2. rewrite set_fresh by (apply Hfresh; now left).
    rewrite IH; [now rewrite <- app_assoc | | assumption].
    intros y Hy. rewrite get_app, Hfresh by (now right). simpl.
    destruct (Z.eqb_spec (id (fst y)) (id (fst x))) as [He|]; [|reflexivity].
    exfalso. apply Hni. rewrite <- He.
    now apply (in_map (fun x => id (fst x))).
Qed.

Lemma index_loaded root :
  unique_ids root ->
  index (loaded root) = map (fun n => (id n, n)) (nodes root).
Proof.
  intros Hu. rewrite loaded_indexAll, index_indexAll. simpl.
  rewrite index_fold_fresh.
  - unfold nodes. now rewrite map_map.
  - reflexivity.
  - unfold unique_ids, nodes in Hu. now rewrite map_map in Hu.
Qed.

Lemma get_index_nodes (ns : list Reflection) n :
  NoDup (map id ns) -> In n ns ->
  JsMap.get (id n) (map (fun n => (id n, n)) ns) = Some n.
Proof.
  intros Hnd Hin. apply In_get.
  - unfold JsMap.keys. now rewrite map_map.
  - now apply (in_map (fun n => (id n, n))).
Qed.

Lemma getById_loaded root n :
  unique_ids root -> In n (nodes root) ->
  JsMap.get (id n) (index (loaded root)) = Some n.
Proof.
  intros Hu Hin. rewrite index_loaded by assumption.
  now apply get_index_nodes.
Qed.

Lemma index_loaded_inv root i r :
  unique_ids root ->
  JsMap.get i (index (loaded root)) = Some r -> In r (nodes root) /\ id r = i.
Proof.
  intros Hu Hg. apply get_In in Hg. rewrite index_loaded in Hg by assumption.
  apply in_map_iff in Hg. destruct Hg as (n & [= <- <-] & Hin). now split.
Qed.

(** *** Buckets of ids: the name and kind indices *)

Lemma bucket_append {K : Type} `{KeyEq K} (k k' : K) (i : Z)
    (m : JsMap.t K (list Z)) :
  or_empty (JsMap.get k (JsMap.set k' (or_empty (JsMap.get k' m) ++ [i]) m)) =
  or_empty (JsMap.get k m) ++ (if key_eqb k' k then [i] else []).
Proof.
  destruct (key_eqb_spec k' k) as [->|Hne].
  - now rewrite get_set_same.
  - rewrite get_set_other by congruence. now rewrite app_nil_r.
Qed.

Lemma bucketTotal_set {K : Type} `{KeyEq K} (k : K) (v : list Z)
    (m : JsMap.t K (list Z)) :
  (bucketTotal (JsMap.set k v m) + List.length (or_empty (JsMap.get k m)) =
   bucketTotal m + List.length v)%nat.
Proof.
  induction m as [|[k' v'] m IH]; simpl.
  - lia.
  - destruct (key_eqb_spec k k') as [->|Hne]; simpl; lia.
Qed.

Lemma bucketTotal_append {K : Type} `{KeyEq K} (k : K) (i : Z)
    (m : JsMap.t K (list Z)) :
  bucketTotal (JsMap.set k (or_empty (JsMap.get k m) ++ [i]) m) =
  S (bucketTotal m).
Proof.
  pose proof (bucketTotal_set k (or_empty (JsMap.get k m) ++ [i]) m) as Hs.
  rewrite length_app in Hs. simpl in Hs. lia.
Qed.

Lemma name_bucket l : forall m k,
  or_empty (JsMap.get k (fold_left nameStep l m)) =
  or_empty (JsMap.get k m) ++ map id (filter (hasName k) (map fst l)).
Proof.
  induction l as [|x l IH]; intros m k; simpl.
  - now rewrite app_nil_r.
  - rewrite IH. unfold nameStep. rewrite bucket_append.
    rewrite <- app_assoc. f_equal. unfold hasName. simpl.
    now destruct (String.eqb (name (fst x)) k).
Qed.

Lemma kind_bucket l : forall m k,
  or_empty (JsMap.get k (fold_left kindStep l m)) =
  or_empty (JsMap.get k m) ++ map id (filter (hasKind k) (map fst l)).
Proof.
  induction l as [|x l IH]; intros m k; simpl.
  - now rewrite app_nil_r.
  - rewrite IH. unfold kindStep, hasKind.
    destruct (kind (fst x)) as [k'|]; [|reflexivity].
    destruct (truthy_number k'); [|reflexivity].
    rewrite bucket_append, <- app_assoc. f_equal. simpl.
    now destruct (k' =? k).
Qed.

Lemma kind_total l : forall m,
  bucketTotal (fold_left kindStep l m) =
  (bucketTotal m + List.length (filter (fun n => truthy_kind (kind n)) (map fst l)))%nat.
Proof.
  induction l as [|x l IH]; intros m; simpl; [lia|].
  rewrite IH. unfold kindStep.
  destruct (kind (fst x)) as [k'|]; simpl; [|reflexivity].
  destruct (truthy_number k'); simpl; [|reflexivity].
  rewrite bucketTotal_append. lia.
Qed.

Lemma nameStep_keys l : forall m,
  NoDup (JsMap.keys m) -> NoDup (JsMap.keys (fold_left nameStep l m)).
Proof.
  induction l as [|x l IH]; intros m Hnd; simpl; [assumption|].
  apply IH. now apply keys_set_NoDup.
Qed.

(** *** The path index *)

Lemma pathStep_keys l : forall m,
  NoDup (JsMap.keys m) -> NoDup (JsMap.keys (fold_left pathStep l m)).
Proof.
  induction l as [|x l IH]; intros m Hnd; simpl; [assumption|].
  apply IH. now apply keys_set_NoDup.
Qed.

Lemma path_get l : forall m q,
  JsMap.get q (fold_left pathStep l m) =
  match lastAt q l with
  | Some n => Some (id n)
  | None => JsMap.get q m
  end.
Proof.
  induction l as [|[n q'] l IH]; intros m q; simpl; [reflexivity|].
  rewrite IH. destruct (lastAt q l); [reflexivity|].
  unfold pathStep; simpl.
  destruct (String.eqb_spec q q') as [->|Hne].
  - apply get_set_same.
  - now apply get_set_other.
Qed.

(** ** Reachability and the traversal *)

Lemma reachable_trans a b c :
  reachable a b -> reachable b c -> reachable a c.
Proof.
  intros Hab Hbc. induction Hbc as [|n l c Hn IH Hl Hc|n l c Hn IH Hl Hc].
  - assumption.
  - eapply reach_child; eassumption.
  - eapply reach_signature; eassumption.
Qed.

Lemma walk_unfold node parentPath :
  walk node parentPath =
  let path := fullPath parentPath (name node) in
  (node, path)
    :: flat_map (fun c => walk c path) (or_empty (children node))
    ++ flat_map (fun c => walk c path) (or_empty (signatures node)).
Proof.
  destruct node as [i n k ks cs sigs]. cbn [walk name children signatures].
  set (path := fullPath parentPath n).
  set (each := fix each (l : list Reflection) {struct l}
                 : list (Reflection * string) :=
                 match l with
                 | [] => []
                 | c :: l' => walk c path ++ each l'
                 end).
  assert (Heach : forall l, each l = flat_map (fun c => walk c path) l).
  { induction l as [|c l IH]; simpl; [reflexivity | now rewrite IH]. }
  cbv zeta. f_equal.
  destruct cs, sigs; simpl; rewrite ?Heach; reflexivity.
Qed.

Lemma walk_head node parentPath :
  In (node, fullPath parentPath (name node)) (walk node parentPath).
Proof. rewrite walk_unfold. now left. Qed.

Lemma walk_reachable r :
  forall pp x, In x (walk r pp) -> reachable r (fst x).
Proof.
  induction r as [i n k ks cs sigs IHc IHs] using Reflection_tree_ind.
  intros pp x. rewrite walk_unfold. cbn [name children signatures].
  set (node := mkReflection i n k ks cs sigs).
  intros [<-|Hin]; [apply reach_root|].
  apply in_app_or in Hin. destruct Hin as [Hin|Hin];
    apply in_flat_map in Hin; destruct Hin as (c & Hc & Hx).
  - destruct cs as [l|]; [|destruct Hc]. simpl in IHc, Hc.
    rewrite Forall_forall in IHc.
    apply reachable_trans with c; [|now apply (IHc c Hc (fullPath pp n) x)].
    now apply reach_child with node l; [apply reach_root | |].
  - destruct sigs as [l|]; [|destruct Hc]. simpl in IHs, Hc.
    rewrite Forall_forall in IHs.
    apply reachable_trans with c; [|now apply (IHs c Hc (fullPath pp n) x)].
    now apply reach_signature with node l; [apply reach_root | |].
Qed.

Lemma walk_closed r :
  forall pp n q c,
    In (n, q) (walk r pp) ->
    In c (or_empty (children n)) \/ In c (or_empty (signatures n)) ->
    In (c, fullPath q (name c)) (walk r pp).
Proof.
  induction r as [i nm k ks cs sigs IHc IHs] using Reflection_tree_ind.
  intros pp n q c. rewrite walk_unfold. cbn [name children signatures].
  set (node := mkReflection i nm k ks cs sigs).
  set (path := fullPath pp nm). cbv zeta.
  cbn [In]. rewrite !in_app_iff.
  assert (Hsub : forall l, Forall (fun r => forall pp n q c,
              In (n, q) (walk r pp) ->
              In c (or_empty (children n)) \/ In c (or_empty (signatures n)) ->
              In (c, fullPath q (name c)) (walk r pp)) l ->
            In (n, q) (flat_map (fun c => walk c path) l) ->
            In c (or_empty (children n)) \/ In c (or_empty (signatures n)) ->
            In (c, fullPath q (name c)) (flat_map (fun c => walk c path) l)).
  { intros l Hl Hn Hc. rewrite Forall_forall in Hl.
    apply in_flat_map in Hn. destruct Hn as (c' & Hc' & Hx).
    apply in_flat_map. exists c'. split; [assumption|].
    now apply (Hl c' Hc' path n q c). }
  assert (Hhead : forall l, In c l ->
            In (c, fullPath path (name c)) (flat_map (fun c => walk c path) l)).
  { intros l Hc. apply in_flat_map. exists c.
    split; [assumption | apply walk_head]. }
  intros [[= <- <-]|[Hn|Hn]] Hc.
  - right. cbn [node children signatures] in Hc.
    destruct Hc as [Hc|Hc]; [left | right]; now apply Hhead.
  - right. left. apply Hsub; try assumption.
    destruct cs; [assumption | constructor].
  - right. right. apply Hsub; try assumption.
    destruct sigs; [assumption | constructor].
Qed.

Lemma nodes_visits root n :
  In n (nodes root) <-> exists q, In (n, q) (visits root).
Proof.
  unfold nodes. rewrite in_map_iff. split.
  - intros ([m q] & <- & Hx). now exists q.
  - intros (q & Hq). now exists (n, q).
Qed.

Lemma nodes_reachable root n : In n (nodes root) <-> reachable root n.
Proof.
  split.
  - intros Hin. apply nodes_visits in Hin. destruct Hin as (q & Hq).
    now apply walk_reachable with (x := (n, q)) (pp := "").
  - induction 1 as [|n l c Hn IH Hl Hc|n l c Hn IH Hl Hc].
    + apply nodes_visits. eexists. apply walk_head.
    + apply nodes_visits in IH. destruct IH as (q & Hq).
      apply nodes_visits. exists (fullPath q (name c)).
      apply walk_closed with n; [assumption|]. left. now rewrite Hl.
    + apply nodes_visits in IH. destruct IH as (q & Hq).
      apply nodes_visits. exists (fullPath q (name c)).
      apply walk_closed with n; [assumption|]. right. now rewrite Hl.
Qed.

(** ** The last writer of a path *)

Lemma lastAt_app q l l' :
  lastAt q (l ++ l') =
  match lastAt q l' with Some m => Some m | None => lastAt q l end.
Proof.
  induction l as [|[n q'] l IH]; simpl.
  - now destruct (lastAt q l').
  - rewrite IH. now destruct (lastAt q l').
Qed.

Lemma lastAt_None q l :
  (forall x, In x l -> snd x <> q) -> lastAt q l = None.
Proof.
  induction l as [|[n q'] l IH]; intros Hno; simpl; [reflexivity|].
  rewrite IH by (intros x Hx; apply Hno; now right).
  destruct (String.eqb_spec q q') as [->|]; [|reflexivity].
  exfalso. now apply (Hno (n, q')); [left|].
Qed.

Lemma lastAt_In q l n : lastAt q l = Some n -> In (n, q) l.
Proof.
  induction l as [|[m q'] l IH]; simpl; [discriminate|].
  destruct (lastAt q l).
  - intros [= ->]. right. now apply IH.
  - destruct (String.eqb_spec q q') as [->|]; [|discriminate].
    intros [= ->]. now left.
Qed.

Lemma lastAt_split q l1 n l2 :
  (forall x, In x l2 -> snd x <> q) ->
  lastAt q (l1 ++ (n, q) :: l2) = Some n.
Proof.
  intros Hno. rewrite lastAt_app. simpl. rewrite (lastAt_None _ _ Hno).
  now rewrite String.eqb_refl.
Qed.

Lemma NoDup_map_inj {A B : Type} (f : A -> B) (l : list A) x y :
  NoDup (map f l) -> In x l -> In y l -> f x = f y -> x = y.
Proof.
  induction l as [|a l IH]; simpl; [tauto|].
  intros Hnd Hx Hy Hf. inversion Hnd as [|? ? Hni Hnd']; subst.
  destruct Hx as [->|Hx], Hy as [->|Hy]; auto.
  - exfalso. apply Hni. rewrite Hf. now apply in_map.
  - exfalso. apply Hni. rewrite <- Hf. now apply in_map.
Qed.

Lemma getPath_scan_In m i q : getPath_scan m i = Some q -> In (q, i) m.
Proof.
  induction m as [|[q' j] m IH]; simpl; [discriminate|].
  destruct (Z.eqb_spec j i) as [->|].
  - intros [= ->]. now left.
  - intros Hs. right. now apply IH.
Qed.

Lemma getPath_scan_None m i :
  getPath_scan m i = None <-> forall q, ~ In (q, i) m.
Proof.
  induction m as [|[q' j] m IH]; simpl.
  - split; [tauto | reflexivity].
  - destruct (Z.eqb_spec j i) as [->|Hne].
    + split; [discriminate|]. intros Hno. exfalso. apply (Hno q'). now left.
    + rewrite IH. split.
      * intros Hno q [[= _ Hji]|Hin]; [congruence | now apply (Hno q)].
      * intros Hno q Hin. apply (Hno q). now right.
Qed.

Lemma visits_unique root :
  unique_ids root -> NoDup (map (fun x => id (fst x)) (visits root)).
Proof. unfold unique_ids, nodes. now rewrite map_map. Qed.

Lemma visit_path_unique root n q q' :
  unique_ids root ->
  In (n, q) (visits root) -> In (n, q') (visits root) -> q = q'.
Proof.
  intros Hu Hq Hq'.
  assert (He : (n, q) = (n, q')).
  { apply (NoDup_map_inj (fun x => id (fst x)) (visits root));
      [now apply visits_unique | assumption | assumption | reflexivity]. }
  congruence.
Qed.

Lemma visit_node_unique root n m q q' :
  unique_ids root ->
  In (n, q) (visits root) -> In (m, q') (visits root) -> id n = id m ->
  n = m /\ q = q'.
Proof.
  intros Hu Hq Hq' Hid.
  assert (He : (n, q) = (m, q')).
  { apply (NoDup_map_inj (fun x => id (fst x)) (visits root));
      [now apply visits_unique | assumption | assumption | assumption]. }
  split; congruence.
Qed.

Lemma pathIndex_loaded_get root q :
  JsMap.get q (pathIndex (loaded root)) =
  option_map id (lastAt q (visits root)).
Proof.
  rewrite loaded_indexAll, pathIndex_indexAll, path_get. simpl.
  now destruct (lastAt q (visits root)).
Qed.

Lemma pathIndex_loaded_keys root :
  NoDup (JsMap.keys (pathIndex (loaded root))).
Proof.
  rewrite loaded_indexAll, pathIndex_indexAll. apply pathStep_keys.
  constructor.
Qed.

Lemma pathIndex_loaded_In root q i :
  In (q, i) (pathIndex (loaded root)) <->
  exists n, lastAt q (visits root) = Some n /\ id n = i.
Proof.
  split.
  - intros Hin. apply In_get in Hin; [|apply pathIndex_loaded_keys].
    rewrite pathIndex_loaded_get in Hin.
    destruct (lastAt q (visits root)) as [n|]; [|discriminate].
    exists n. split; [reflexivity | now injection Hin].
  - intros (n & Hl & <-). apply get_In.
    now rewrite pathIndex_loaded_get, Hl.
Qed.

(** A node whose path was not taken over by a later visit is found by
    the scan of [getPath] under that path. *)
Lemma getPath_registered root n q :
  unique_ids root ->
  lastAt q (visits root) = Some n ->
  getPath (loaded root) n = q.
Proof.
  intros Hu Hl. unfold getPath.
  destruct (getPath_scan (pathIndex (loaded root)) (id n)) as [q'|] eqn:Hs.
  - apply getPath_scan_In, pathIndex_loaded_In in Hs.
    destruct Hs as (m & Hm & Hid).
    apply lastAt_In in Hl, Hm.
    now destruct (visit_node_unique root m n q' q Hu Hm Hl Hid).
  - exfalso. rewrite getPath_scan_None in Hs. apply (Hs q).
    apply pathIndex_loaded_In. now exists n.
Qed.

(** A node whose path was taken over has no entry left in the path
    index. *)
Lemma overwritten_no_entry root n q :
  unique_ids root ->
  In (n, q) (visits root) ->
  lastAt q (visits root) <> Some n ->
  forall q', ~ In (q', id n) (pathIndex (loaded root)).
Proof.
  intros Hu Hin Hl q' Hq'. apply pathIndex_loaded_In in Hq'.
  destruct Hq' as (m & Hm & Hid). pose proof (lastAt_In _ _ _ Hm) as Hm'.
  destruct (visit_node_unique root m n q' q Hu Hm' Hin Hid) as [-> ->].
  contradiction.
Qed.

Lemma getPath_no_entry p n :
  (forall q, ~ In (q, id n) (pathIndex p)) -> getPath p n = name n.
Proof.
  intros Hno. unfold getPath. apply getPath_scan_None in Hno.
  now rewrite Hno.
Qed.

(** ** Resolving ids to entries *)

Lemma resolveIds_map p ns :
  (forall n, In n ns -> JsMap.get (id n) (index p) = Some n) ->
  resolveIds p (map id ns) = map (createParsedSymbol p) ns.
Proof.
  induction ns as [|n ns IH]; intros Hall; simpl; [reflexivity|].
  rewrite Hall by now left. f_equal. apply IH.
  intros m Hm. apply Hall. now right.
Qed.

Lemma resolveIds_In p ids e :
  In e (resolveIds p ids) ->
  exists i r, In i ids /\ JsMap.get i (index p) = Some r /\
              e = createParsedSymbol p r.
Proof.
  induction ids as [|i ids IH]; simpl; [tauto|].
  destruct (JsMap.get i (index p)) as [r|] eqn:Hg.
  - intros [<-|Hin].
    + exists i, r. auto.
    + destruct (IH Hin) as (j & r' & Hj & Hr & He). exists j, r'. auto.
  - intros Hin. destruct (IH Hin) as (j & r' & Hj & Hr & He).
    exists j, r'. auto.
Qed.

Lemma nameIndex_loaded_bucket root k :
  or_empty (JsMap.get k (nameIndex (loaded root))) =
  map id (filter (hasName k) (nodes root)).
Proof. now rewrite loaded_indexAll, nameIndex_indexAll, name_bucket. Qed.

Lemma nameIndex_loaded_keys root :
  NoDup (JsMap.keys (nameIndex (loaded root))).
Proof.
  rewrite loaded_indexAll, nameIndex_indexAll. apply nameStep_keys.
  constructor.
Qed.

Lemma nameIndex_loaded_In root k ids :
  In (k, ids) (nameIndex (loaded root)) ->
  ids = map id (filter (hasName k) (nodes root)).
Proof.
  intros Hin. apply In_get in Hin; [|apply nameIndex_loaded_keys].
  rewrite <- nameIndex_loaded_bucket. now rewrite Hin.
Qed.

Lemma nameIndex_loaded_has root n :
  In n (nodes root) ->
  In (name n, map id (filter (hasName (name n)) (nodes root)))
     (nameIndex (loaded root)).
Proof.
  intros Hin. apply get_In.
  pose proof (nameIndex_loaded_bucket root (name n)) as Hb.
  destruct (JsMap.get (name n) (nameIndex (loaded root))) as [ids|].
  - simpl in Hb. now rewrite Hb.
  - exfalso. simpl in Hb.
    assert (Hm : In (id n) (map id (filter (hasName (name n)) (nodes root)))).
    { apply in_map, filter_In. split; [assumption|].
      unfold hasName. apply String.eqb_refl. }
    rewrite <- Hb in Hm. destruct Hm.
Qed.

Lemma kindIndex_loaded_bucket root k :
  or_empty (JsMap.get k (kindIndex (loaded root))) =
  map id (filter (hasKind k) (nodes root)).
Proof. now rewrite loaded_indexAll, kindIndex_indexAll, kind_bucket. Qed.

Lemma resolve_loaded root ns :
  unique_ids root -> incl ns (nodes root) ->
  resolveIds (loaded root) (map id ns) =
  map (createParsedSymbol (loaded root)) ns.
Proof.
  intros Hu Hincl. apply resolveIds_map.
  intros n Hn. apply getById_loaded; auto.
Qed.

Ltac nodup_by_computation :=
  repeat (constructor; [simpl; intros Hin; decompose [or] Hin; congruence|]);
  constructor.

Lemma libTree_unique : unique_ids libTree.
Proof. unfold unique_ids. simpl. nodup_by_computation. Defined.

Lemma clashTree_unique : unique_ids clashTree.
Proof. unfold unique_ids. simpl. nodup_by_computation. Defined.

Lemma libTree_positive : positive_ids libTree.
Proof. unfold positive_ids. simpl. repeat constructor. Defined.

Lemma clashTree_positive : positive_ids clashTree.
Proof. unfold positive_ids. simpl. repeat constructor. Defined.

(** The first scenario of the specification, evaluated. *)
Example libTree_scenario :
  JsMap.size (index (loaded libTree)) = 3%nat /\
  pathIndex (loaded libTree) =
    [("Lib", 1); ("Lib.Widget", 2); ("Lib.Widget.render", 3)] /\
  map ParsedSymbol.id
    (findByName ascii_toLowerCase "render" true (loaded libTree)) = [3] /\
  map ParsedSymbol.id (findByKind 128 (loaded libTree)) = [2] /\
  classes (getStats (loaded libTree)) = 1%nat /\
  total (getStats (loaded libTree)) = 3%nat.
Proof. repeat split. Qed.

(** [findByPath] tests the id it reads for truthiness, so a path
    registered to the id 0 is reported as not found. *)
Remark findByPath_skips_id_zero path p :
  JsMap.get path (pathIndex p) = Some 0 -> findByPath path p = None.
Proof. intros Hg. unfold findByPath. now rewrite Hg. Qed.

(** ** The ID index *)

(** C1. After a fresh parser has loaded a tree whose ids are unique,
    every node reachable from the root through [children] and
    [signatures] is an entry of the ID index under its own id, found by
    [getById]; no key occurs twice, so that entry occurs exactly once;
    and every entry of the index is a reachable node under its own id.
    The index is, in traversal order, the list of the visited nodes. *)
Theorem C1_id_index_is_the_reachable_nodes root :
  unique_ids root ->
  (forall n, reachable root n ->
     In (id n, n) (index (loaded root)) /\
     count_occ Z.eq_dec (JsMap.keys (index (loaded root))) (id n) = 1%nat /\
     getById (id n) (loaded root) = Some n) /\
  (forall i r, In (i, r) (index (loaded root)) ->
     reachable root r /\ i = id r) /\
  index (loaded root) = map (fun n => (id n, n)) (nodes root).
Proof.
  intros Hu. pose proof (index_loaded root Hu) as Hidx.
  assert (Hkeys : JsMap.keys (index (loaded root)) = map id (nodes root)).
  { rewrite Hidx. unfold JsMap.keys. now rewrite map_map. }
  repeat split.
  - rewrite Hidx. apply (in_map (fun n => (id n, n))).
    now apply nodes_reachable.
  - rewrite Hkeys. apply NoDup_count_occ'; [assumption|].
    apply in_map. now apply nodes_reachable.
  - apply getById_loaded; [assumption | now apply nodes_reachable].
  - rewrite Hidx in H. apply in_map_iff in H.
    destruct H as (n & [= <- <-] & Hin). now apply nodes_reachable.
  - rewrite Hidx in H. apply in_map_iff in H.
    now destruct H as (n & [= <- <-] & Hin).
  - assumption.
Qed.

Lemma C1_witness :
  unique_ids libTree /\
  ((forall n, reachable libTree n ->
      In (id n, n) (index (loaded libTree)) /\
      count_occ Z.eq_dec (JsMap.keys (index (loaded libTree))) (id n) = 1%nat /\
      getById (id n) (loaded libTree) = Some n) /\
   (forall i r, In (i, r) (index (loaded libTree)) ->
      reachable libTree r /\ i = id r) /\
   index (loaded libTree) = map (fun n => (id n, n)) (nodes libTree)).
Proof.
  split; [exact libTree_unique|].
  exact (C1_id_index_is_the_reachable_nodes libTree libTree_unique).
Defined.

(** ** The path index and its collisions *)

Lemma fullPath_spec parentPath nodeName :
  fullPath parentPath nodeName =
  if String.eqb parentPath "" then nodeName
  else (parentPath ++ "." ++ nodeName)%string.
Proof. now destruct parentPath. Qed.

Lemma split_distinct_ids root l1 a qa l2 b qb l3 :
  unique_ids root ->
  visits root = l1 ++ (a, qa) :: l2 ++ (b, qb) :: l3 ->
  id a <> id b.
Proof.
  intros Hu Hv. apply visits_unique in Hu. rewrite Hv in Hu.
  rewrite map_app in Hu. simpl in Hu. apply NoDup_remove_2 in Hu.
  intros He. apply Hu. apply in_or_app. right. rewrite map_app. simpl.
  apply in_or_app. right. left. now rewrite He.
Qed.

(** C2. The root is registered under its name; a child or signature of
    a node registered under [q] is registered under [q ++ "." ++ name]
    when [q] is not empty and under its bare name otherwise.  The path
    index maps a path to the id of the last visit given that path: when
    two visits compute the same path and no later visit does, the path
    index maps that path to the later node's id, the earlier node's id
    is no value of the path index any more, and [findByPath] answers
    with the entry of the later node, not of the earlier one. *)
Theorem C2_path_collision_keeps_later_node root :
  unique_ids root -> positive_ids root ->
  In (root, name root) (visits root) /\
  (forall n q c,
     In (n, q) (visits root) ->
     In c (or_empty (children n)) \/ In c (or_empty (signatures n)) ->
     In (c, if String.eqb q "" then name c
            else (q ++ "." ++ name c)%string) (visits root)) /\
  (forall q, JsMap.get q (pathIndex (loaded root)) =
             option_map id (lastAt q (visits root))) /\
  (forall l1 a l2 b l3 q,
     visits root = l1 ++ (a, q) :: l2 ++ (b, q) :: l3 ->
     (forall x, In x l3 -> snd x <> q) ->
     a <> b /\
     JsMap.get q (pathIndex (loaded root)) = Some (id b) /\
     (forall q', JsMap.get q' (pathIndex (loaded root)) <> Some (id a)) /\
     findByPath q (loaded root) = Some (createParsedSymbol (loaded root) b) /\
     ParsedSymbol.path (createParsedSymbol (loaded root) b) = q /\
     findByPath q (loaded root) <> Some (createParsedSymbol (loaded root) a)).
Proof.
  intros Hu Hpos. split; [|split; [|split]].
  - apply (walk_head root "").
  - intros n q c Hn Hc. rewrite <- fullPath_spec.
    now apply walk_closed with n.
  - apply pathIndex_loaded_get.
  - intros l1 a l2 b l3 q Hv Hno.
    pose proof (split_distinct_ids root l1 a q l2 b q l3 Hu Hv) as Hids.
    assert (Hlast : lastAt q (visits root) = Some b).
    { rewrite Hv.
      replace (l1 ++ (a, q) :: l2 ++ (b, q) :: l3)
        with ((l1 ++ (a, q) :: l2) ++ (b, q) :: l3)
        by (now rewrite <- app_assoc).
      now apply lastAt_split. }
    assert (Hb : In b (nodes root)).
    { apply nodes_visits. exists q. now apply lastAt_In. }
    assert (Ha : In (a, q) (visits root)).
    { rewrite Hv. apply in_or_app. right. now left. }
    assert (Hget : JsMap.get q (pathIndex (loaded root)) = Some (id b)).
    { now rewrite pathIndex_loaded_get, Hlast. }
    assert (Hfind : findByPath q (loaded root) =
                    Some (createParsedSymbol (loaded root) b)).
    { unfold findByPath. rewrite Hget.
      unfold positive_ids in Hpos. rewrite Forall_forall in Hpos.
      specialize (Hpos b Hb). unfold truthy_number.
      destruct (Z.eqb_spec (id b) 0) as [He|_]; [lia|]. simpl.
      now rewrite getById_loaded. }
    repeat split.
    + intros ->. now apply Hids.
    + assumption.
    + intros q' Hq'. apply get_In in Hq'.
      apply (overwritten_no_entry root a q Hu Ha) with q'; [|assumption].
      rewrite Hlast. intros [= ->]. now apply Hids.
    + assumption.
    + simpl. now apply getPath_registered.
    + rewrite Hfind. intros [= He]. now apply Hids.
Qed.

Lemma C2_witness :
  unique_ids clashTree /\ positive_ids clashTree /\
  JsMap.get "Lib.Widget" (pathIndex (loaded clashTree)) = Some 3 /\
  findByPath "Lib.Widget" (loaded clashTree) =
    Some (createParsedSymbol (loaded clashTree) (leaf 3 "Widget" 256)).
Proof.
  split; [exact clashTree_unique|]. split; [exact clashTree_positive|].
  destruct (C2_path_collision_keeps_later_node clashTree
              clashTree_unique clashTree_positive) as (_ & _ & _ & Hclash).
  destruct (Hclash [(clashTree, "Lib")] (leaf 2 "Widget" 128) []
              (leaf 3 "Widget" 256) [] "Lib.Widget" eq_refl)
    as (_ & Hget & _ & Hfind & _).
  - intros x [].
  - split; assumption.
Defined.

(** ** Queries on a parser that holds no document *)

Lemma call_empty_indices toLowerCase p q :
  index p = [] -> nameIndex p = [] -> pathIndex p = [] -> kindIndex p = [] ->
  call toLowerCase p q = Normal (emptyAnswer q).
Proof.
  intros Hi Hn Hp Hk.
  destruct q as [i|nm [|]| |k|]; unfold call, emptyAnswer, getById, findByName,
    findByPath, findByKind, getStats; rewrite ?Hi, ?Hn, ?Hp, ?Hk; reflexivity.
Qed.

(** C3 (as stated, refuted). On a parser that has loaded nothing the
    exact search for a name completes normally with the empty list; no
    error is raised. *)
Lemma C3_counterexample :
  call ascii_toLowerCase (TypeDocParser_new "typedoc.json")
       (FindByName "render" true) = Normal (ASymbols []) /\
  ~ (exists message,
       call ascii_toLowerCase (TypeDocParser_new "typedoc.json")
            (FindByName "render" true) = Throw message).
Proof.
  split; [reflexivity|]. intros (message & Hm). discriminate Hm.
Qed.

(** C3 (amended). Every query made before a successful load -- on a
    fresh parser, after a load whose read failed, or after a load of a
    falsy document -- completes normally with the negative answer of
    its shape: not found for the lookups by id and by path, the empty
    list for the searches by name and by kind, all-zero statistics. *)
Theorem C3_queries_before_load_answer_empty toLowerCase docPath q :
  call toLowerCase (TypeDocParser_new docPath) q = Normal (emptyAnswer q) /\
  (forall error,
     snd (parse (Unreadable error) (TypeDocParser_new docPath)) = Throw error /\
     call toLowerCase
       (fst (parse (Unreadable error) (TypeDocParser_new docPath))) q =
     Normal (emptyAnswer q)) /\
  snd (parse Falsy (TypeDocParser_new docPath)) =
    Throw "Failed to parse TypeDoc JSON" /\
  call toLowerCase (fst (parse Falsy (TypeDocParser_new docPath))) q =
    Normal (emptyAnswer q).
Proof.
  repeat split; try apply call_empty_indices; reflexivity.
Qed.

(** ** Search by name *)

(** C4. With unique ids, the exact search for a name returns one entry
    per visited node of that name, in traversal order: its length is
    the number of such nodes and the nodes behind its entries are those
    nodes in the order the traversal met them. *)
Theorem C4_exact_name_search_in_traversal_order toLowerCase root k :
  unique_ids root ->
  findByName toLowerCase k true (loaded root) =
    map (createParsedSymbol (loaded root)) (filter (hasName k) (nodes root)) /\
  map ParsedSymbol.reflection (findByName toLowerCase k true (loaded root)) =
    filter (hasName k) (nodes root) /\
  List.length (findByName toLowerCase k true (loaded root)) =
    count_occ string_dec (map name (nodes root)) k.
Proof.
  intros Hu.
  assert (Hfind : findByName toLowerCase k true (loaded root) =
            map (createParsedSymbol (loaded root))
                (filter (hasName k) (nodes root))).
  { unfold findByName. rewrite nameIndex_loaded_bucket.
    apply resolve_loaded; [assumption|].
    intros n Hn. now apply filter_In in Hn. }
  rewrite Hfind. repeat split.
  - rewrite map_map. simpl. apply map_id.
  - rewrite length_map. clear Hfind Hu.
    induction (nodes root) as [|n ns IH]; simpl; [reflexivity|].
    unfold hasName at 1.
    destruct (String.eqb_spec (name n) k) as [He|Hne];
      destruct (string_dec (name n) k); try contradiction; simpl;
      now rewrite IH.
Qed.

Lemma C4_witness :
  unique_ids clashTree /\
  findByName ascii_toLowerCase "Widget" true (loaded clashTree) =
    map (createParsedSymbol (loaded clashTree))
        (filter (hasName "Widget") (nodes clashTree)) /\
  map ParsedSymbol.reflection
      (findByName ascii_toLowerCase "Widget" true (loaded clashTree)) =
    filter (hasName "Widget") (nodes clashTree) /\
  List.length (findByName ascii_toLowerCase "Widget" true (loaded clashTree)) =
    count_occ string_dec (map name (nodes clashTree)) "Widget".
Proof.
  split; [exact clashTree_unique|].
  exact (C4_exact_name_search_in_traversal_order ascii_toLowerCase clashTree
           "Widget" clashTree_unique).
Defined.

Lemma prefix_refl s : String.prefix s s = true.
Proof.
  induction s as [|c s IH]; simpl; [reflexivity|].
  now destruct (ascii_dec c c).
Qed.

Lemma includes_refl s : includes s s = true.
Proof. destruct s; cbn [includes]; now rewrite prefix_refl. Qed.

Lemma exact_incl_partial toLowerCase p q :
  incl (findByName toLowerCase q true p) (findByName toLowerCase q false p).
Proof.
  intros e. unfold findByName.
  destruct (JsMap.get q (nameIndex p)) as [ids|] eqn:Hg; simpl; [|tauto].
  intros He. apply in_flat_map. exists (q, ids).
  split; [exact (get_In _ _ _ Hg)|]. now rewrite includes_refl.
Qed.

(** ** Substrings and letter case *)

Lemma prefix_spec p : forall s,
  String.prefix p s = true <-> exists rest, s = (p ++ rest)%string.
Proof.
  induction p as [|a p IH]; intros s; simpl.
  - destruct s; split; eauto.
  - destruct s as [|b s]; simpl.
    + split; [discriminate | intros (rest & Hr); discriminate].
    + destruct (ascii_dec a b) as [->|Hne].
      * rewrite IH. split; intros (rest & Hr); exists rest; congruence.
      * split; [discriminate | intros (rest & Hr); congruence].
Qed.

Lemma includes_spec s : forall sub,
  includes s sub = true <->
  exists before after, s = (before ++ sub ++ after)%string.
Proof.
  induction s as [|c s IH]; intros sub; cbn [includes]; rewrite orb_true_iff, prefix_spec.
  - split.
    + intros [(rest & Hr)|Hf]; [|discriminate]. exists "", rest. exact Hr.
    + intros (before & after & Hs). left.
      destruct before; [now exists after | discriminate].
  - rewrite IH. split.
    + intros [(rest & Hr)|(before & after & Hs)].
      * exists "", rest. exact Hr.
      * exists (String c before), after. simpl. now rewrite Hs.
    + intros (before & after & Hs). destruct before as [|b before].
      * left. now exists after.
      * right. simpl in Hs. injection Hs as _ Hs. now exists before, after.
Qed.

Lemma lower_app a b :
  ascii_toLowerCase (a ++ b) = (ascii_toLowerCase a ++ ascii_toLowerCase b)%string.
Proof. induction a as [|c a IH]; simpl; [reflexivity | now rewrite IH]. Qed.

Lemma lower_split x : forall s y,
  ascii_toLowerCase s = (x ++ y)%string ->
  exists a b, s = (a ++ b)%string /\ ascii_toLowerCase a = x /\
              ascii_toLowerCase b = y.
Proof.
  induction x as [|c x IH]; intros s y Hs.
  - exists "", s. auto.
  - destruct s as [|d s]; [discriminate|]. simpl in Hs.
    injection Hs as Hc Hs. destruct (IH s y Hs) as (a & b & -> & Ha & Hb).
    exists (String d a), b. simpl. now rewrite Hc, Ha.
Qed.

Lemma nat_of_ascii_inj c d : nat_of_ascii c = nat_of_ascii d -> c = d.
Proof.
  intros He. rewrite <- (ascii_nat_embedding c), <- (ascii_nat_embedding d).
  now rewrite He.
Qed.

Lemma lower_char_code c :
  nat_of_ascii (ascii_toLowerCase_char c) =
  if isUpperCode (nat_of_ascii c) then (nat_of_ascii c + 32)%nat
  else nat_of_ascii c.
Proof.
  unfold ascii_toLowerCase_char, isUpperCode. cbv zeta.
  destruct ((65 <=? nat_of_ascii c)%nat && (nat_of_ascii c <=? 90)%nat) eqn:Hu;
    [|reflexivity].
  apply andb_true_iff in Hu. destruct Hu as [_ Hu]. apply Nat.leb_le in Hu.
  apply nat_ascii_embedding. lia.
Qed.

Lemma sameLetter_spec c d :
  sameLetter c d = true <->
  ascii_toLowerCase_char c = ascii_toLowerCase_char d.
Proof.
  split.
  - intros Hs. apply nat_of_ascii_inj. rewrite !lower_char_code.
    unfold sameLetter, isUpperCode in *. cbv zeta in Hs.
    destruct (65 <=? nat_of_ascii c)%nat eqn:H1, (nat_of_ascii c <=? 90)%nat eqn:H2,
             (65 <=? nat_of_ascii d)%nat eqn:H3, (nat_of_ascii d <=? 90)%nat eqn:H4;
      cbn [andb orb] in *;
      rewrite ?orb_false_r, ?orb_true_iff, ?Nat.eqb_eq in Hs;
      rewrite ?Nat.leb_le, ?Nat.leb_gt in *; lia.
  - intros He. apply (f_equal nat_of_ascii) in He. rewrite !lower_char_code in He.
    unfold sameLetter, isUpperCode in *. cbv zeta.
    destruct (65 <=? nat_of_ascii c)%nat eqn:H1, (nat_of_ascii c <=? 90)%nat eqn:H2,
             (65 <=? nat_of_ascii d)%nat eqn:H3, (nat_of_ascii d <=? 90)%nat eqn:H4;
      cbn [andb orb] in *;
      rewrite ?orb_false_r, ?orb_true_iff, ?Nat.eqb_eq;
      rewrite ?Nat.leb_le, ?Nat.leb_gt in *; lia.
Qed.

Lemma sameUpToCase_spec s : forall t,
  sameUpToCase s t = true <-> ascii_toLowerCase s = ascii_toLowerCase t.
Proof.
  induction s as [|c s IH]; intros [|d t]; simpl;
    try (split; reflexivity); try (split; discriminate).
  rewrite andb_true_iff, sameLetter_spec, IH. split.
  - intros [-> ->]. reflexivity.
  - intros [= Hc Hs]. auto.
Qed.

Lemma contains_up_to_case s q :
  (exists before after,
     ascii_toLowerCase s = (before ++ ascii_toLowerCase q ++ after)%string) <->
  (exists before middle after,
     s = (before ++ middle ++ after)%string /\ sameUpToCase middle q = true).
Proof.
  split.
  - intros (x & y & Hs). apply lower_split in Hs.
    destruct Hs as (a & rest & -> & _ & Hrest). apply lower_split in Hrest.
    destruct Hrest as (m & b & -> & Hm & _).
    exists a, m, b. split; [reflexivity|]. now apply sameUpToCase_spec.
  - intros (a & m & b & -> & Hm). apply sameUpToCase_spec in Hm.
    exists (ascii_toLowerCase a), (ascii_toLowerCase b).
    now rewrite !lower_app, Hm.
Qed.

Lemma partial_search_membership toLowerCase root q e :
  unique_ids root ->
  (In e (findByName toLowerCase q false (loaded root)) <->
   exists n, In n (nodes root) /\
             includes (toLowerCase (name n)) (toLowerCase q) = true /\
             e = createParsedSymbol (loaded root) n).
Proof.
  intros Hu. unfold findByName. rewrite in_flat_map. split.
  - intros ([k ids] & Hin & He).
    destruct (includes (toLowerCase k) (toLowerCase q)) eqn:Hinc;
      [|destruct He].
    apply nameIndex_loaded_In in Hin. subst ids.
    rewrite resolve_loaded in He;
      [|assumption | intros n Hn; now apply filter_In in Hn].
    apply in_map_iff in He. destruct He as (n & <- & Hn).
    apply filter_In in Hn. destruct Hn as [Hn Hk].
    unfold hasName in Hk. apply String.eqb_eq in Hk. subst k.
    now exists n.
  - intros (n & Hn & Hinc & ->).
    exists (name n, map id (filter (hasName (name n)) (nodes root))).
    split; [now apply nameIndex_loaded_has|]. rewrite Hinc.
    rewrite resolve_loaded;
      [|assumption | intros m Hm; now apply filter_In in Hm].
    apply in_map, filter_In. split; [assumption|].
    unfold hasName. apply String.eqb_refl.
Qed.

(** C5. In partial mode, on a loaded tree with unique ids, an entry is
    returned exactly when it is the entry of a visited node whose
    lower-cased name has the lower-cased query as a substring: the name
    is some text, then the query, then some text.  Queries with the
    same lower-case form return the same list, and every entry of the
    exact search for a string is an entry of the partial search for it.
    Where [toLowerCase] is the lower-casing of 7-bit strings, and the
    query and the names are such strings, an entry is returned exactly
    when its node's name has a substring that is the query up to the
    case of its letters. *)
Theorem C5_partial_name_search toLowerCase root q :
  (unique_ids root ->
   forall e,
     In e (findByName toLowerCase q false (loaded root)) <->
     exists n, In n (nodes root) /\
               (exists before after,
                  toLowerCase (name n) =
                  (before ++ toLowerCase q ++ after)%string) /\
               e = createParsedSymbol (loaded root) n) /\
  (forall q', toLowerCase q' = toLowerCase q ->
     findByName toLowerCase q' false (loaded root) =
     findByName toLowerCase q false (loaded root)) /\
  incl (findByName toLowerCase q true (loaded root))
       (findByName toLowerCase q false (loaded root)) /\
  ((forall s, asciiOnly s = true -> toLowerCase s = ascii_toLowerCase s) ->
   unique_ids root ->
   asciiOnly q = true ->
   (forall n, In n (nodes root) -> asciiOnly (name n) = true) ->
   forall e,
     In e (findByName toLowerCase q false (loaded root)) <->
     exists n before middle after,
       In n (nodes root) /\
       name n = (before ++ middle ++ after)%string /\
       sameUpToCase middle q = true /\
       e = createParsedSymbol (loaded root) n).
Proof.
  assert (Hmem : unique_ids root ->
   forall e,
     In e (findByName toLowerCase q false (loaded root)) <->
     exists n, In n (nodes root) /\
               (exists before after,
                  toLowerCase (name n) =
                  (before ++ toLowerCase q ++ after)%string) /\
               e = createParsedSymbol (loaded root) n).
  { intros Hu e. rewrite partial_search_membership by assumption.
    split; intros (n & Hn & Hc & He); exists n; (split; [assumption|]);
      (split; [|assumption]); now apply includes_spec. }
  split; [exact Hmem|]. split; [|split].
  - intros q' Hq'. unfold findByName. now rewrite Hq'.
  - apply exact_incl_partial.
  - intros Hlower Hu Hq Hnames e. rewrite Hmem by assumption.
    rewrite (Hlower q Hq). split.
    + intros (n & Hn & Hc & He).
      rewrite (Hlower (name n) (Hnames n Hn)) in Hc.
      apply contains_up_to_case in Hc.
      destruct Hc as (before & middle & after & Hsplit & Hsame).
      now exists n, before, middle, after.
    + intros (n & before & middle & after & Hn & Hsplit & Hsame & He).
      exists n. split; [assumption|]. split; [|assumption].
      rewrite (Hlower (name n) (Hnames n Hn)).
      apply contains_up_to_case. now exists before, middle, after.
Qed.

Lemma C5_witness :
  unique_ids libTree /\
  asciiOnly "REND" = true /\
  (forall n, In n (nodes libTree) -> asciiOnly (name n) = true) /\
  sameUpToCase "rend" "REND" = true /\
  In (createParsedSymbol (loaded libTree) (leaf 3 "render" 2048))
     (findByName ascii_toLowerCase "REND" false (loaded libTree)).
Proof.
  assert (Hnames : forall n, In n (nodes libTree) -> asciiOnly (name n) = true).
  { simpl. intros n [<-|[<-|[<-|[]]]]; reflexivity. }
  split; [exact libTree_unique|]. split; [reflexivity|].
  split; [exact Hnames|]. split; [reflexivity|].
  apply (proj2 (proj2 (proj2
           (C5_partial_name_search ascii_toLowerCase libTree "REND")))
           (fun s _ => eq_refl) libTree_unique eq_refl Hnames).
  exists (leaf 3 "render" 2048), "", "rend", "er".
  repeat split. simpl. tauto.
Defined.

(** ** The kind index *)

(** C6. On a tree whose kinds, where present, are kind tags (none is
    0): indexing a node appends its id to the bucket of its kind when
    the kind is present and leaves the kind index alone when it is
    absent; so each bucket lists, in traversal order, the ids of the
    visited nodes of that kind, and the bucket sizes sum to the number
    of visited nodes that carry a kind. *)
Theorem C6_kind_buckets_hold_nodes_with_kind root :
  (forall n, In n (nodes root) -> kind n <> Some 0) ->
  (forall n path p, In n (nodes root) ->
     kindIndex (indexNode n path p) =
     match kind n with
     | Some k =>
         JsMap.set k (or_empty (JsMap.get k (kindIndex p)) ++ [id n])
           (kindIndex p)
     | None => kindIndex p
     end) /\
  (forall k, or_empty (JsMap.get k (kindIndex (loaded root))) =
             map id (filter (kindIs k) (nodes root))) /\
  bucketTotal (kindIndex (loaded root)) =
    List.length (filter kindPresent (nodes root)).
Proof.
  intros Hkinds.
  assert (Htruthy : forall n k, In n (nodes root) -> kind n = Some k ->
                                truthy_number k = true).
  { intros n k Hn Hk. unfold truthy_number.
    destruct (Z.eqb_spec k 0) as [->|]; [|reflexivity].
    now destruct (Hkinds n Hn). }
  split; [|split].
  - intros n path p Hn. simpl.
    destruct (kind n) as [k|] eqn:Hk; [|reflexivity].
    now rewrite (Htruthy n k Hn Hk).
  - intros k. rewrite kindIndex_loaded_bucket. f_equal.
    apply filter_ext_in. intros n Hn. unfold hasKind, kindIs.
    destruct (kind n) as [k'|] eqn:Hk; [|reflexivity].
    now rewrite (Htruthy n k' Hn Hk).
  - rewrite loaded_indexAll, kindIndex_indexAll, kind_total. simpl.
    fold (nodes root). f_equal.
    apply filter_ext_in. intros n Hn. unfold truthy_kind, kindPresent.
    destruct (kind n) as [k'|] eqn:Hk; [|reflexivity].
    now rewrite (Htruthy n k' Hn Hk).
Qed.

Lemma C6_witness :
  (forall n, In n (nodes libTree) -> kind n <> Some 0) /\
  (forall k, or_empty (JsMap.get k (kindIndex (loaded libTree))) =
             map id (filter (kindIs k) (nodes libTree))) /\
  bucketTotal (kindIndex (loaded libTree)) =
    List.length (filter kindPresent (nodes libTree)).
Proof.
  assert (Hkinds : forall n, In n (nodes libTree) -> kind n <> Some 0).
  { simpl. intros n [<-|[<-|[<-|[]]]]; discriminate. }
  split; [exact Hkinds|].
  exact (proj2 (C6_kind_buckets_hold_nodes_with_kind libTree Hkinds)).
Defined.

(** ** Statistics *)

(** C7. On any parser state the statistics are read off the live
    indices: the total is the size of the ID index and each count is
    the length of the kind-index bucket of its kind (0 when the bucket
    is missing); two states with the same ID and kind indices give the
    same record; a parser that has loaded nothing reports 0 throughout;
    and after a load the counts are the numbers of visited nodes of
    those kinds. *)
Theorem C7_stats_read_live_indices :
  (forall p,
     total (getStats p) = JsMap.size (index p) /\
     classes (getStats p) =
       List.length (or_empty (JsMap.get ReflectionKind_Class (kindIndex p))) /\
     interfaces (getStats p) =
       List.length (or_empty (JsMap.get ReflectionKind_Interface (kindIndex p))) /\
     functions (getStats p) =
       List.length (or_empty (JsMap.get ReflectionKind_Function (kindIndex p))) /\
     variables (getStats p) =
       List.length (or_empty (JsMap.get ReflectionKind_Variable (kindIndex p))) /\
     types (getStats p) =
       List.length (or_empty (JsMap.get ReflectionKind_TypeAlias (kindIndex p))) /\
     enums (getStats p) =
       List.length (or_empty (JsMap.get ReflectionKind_Enum (kindIndex p))) /\
     modules (getStats p) =
       List.length (or_empty (JsMap.get ReflectionKind_Module (kindIndex p)))) /\
  (forall p p', index p = index p' -> kindIndex p = kindIndex p' ->
     getStats p = getStats p') /\
  (forall docPath, getStats (TypeDocParser_new docPath) = noStats) /\
  (forall root,
     total (getStats (loaded root)) = JsMap.size (index (loaded root)) /\
     classes (getStats (loaded root)) =
       List.length (filter (hasKind ReflectionKind_Class) (nodes root)) /\
     modules (getStats (loaded root)) =
       List.length (filter (hasKind ReflectionKind_Module) (nodes root))).
Proof.
  assert (Hlen : forall o, length_or_zero o = List.length (or_empty o)).
  { now intros [l|]. }
  repeat split; try (simpl; apply Hlen).
  - intros p p' Hi Hk. unfold getStats. now rewrite Hi, Hk.
  - simpl. now rewrite Hlen, kindIndex_loaded_bucket, length_map.
  - simpl. now rewrite Hlen, kindIndex_loaded_bucket, length_map.
Qed.

Lemma C7_witness :
  getStats (loaded libTree) = mkStats 3 1 0 0 0 0 0 1 /\
  getStats (mkParser (index (loaded libTree)) [] []
              (kindIndex (loaded libTree)) None "other.json") =
  getStats (loaded libTree).
Proof.
  split; [reflexivity|].
  exact (proj1 (proj2 C7_stats_read_live_indices) _ _ eq_refl eq_refl).
Defined.

(** ** Paths of entries *)

(** C8. On a loaded tree with unique positive ids, take a visited node
    and the path the traversal gave it.  Unless a later visit was given
    the same path, [getPath] returns that path for the node, and
    [findByPath] on it returns the entry of that same node. *)
Theorem C8_path_round_trip root l1 n q l2 :
  unique_ids root -> positive_ids root ->
  visits root = l1 ++ (n, q) :: l2 ->
  (forall x, In x l2 -> snd x <> q) ->
  getPath (loaded root) n = q /\
  findByPath (getPath (loaded root) n) (loaded root) =
    Some (createParsedSymbol (loaded root) n) /\
  option_map ParsedSymbol.reflection
    (findByPath (getPath (loaded root) n) (loaded root)) = Some n.
Proof.
  intros Hu Hpos Hv Hno.
  assert (Hlast : lastAt q (visits root) = Some n).
  { rewrite Hv. now apply lastAt_split. }
  assert (Hn : In n (nodes root)).
  { apply nodes_visits. exists q. now apply lastAt_In. }
  assert (Hpath : getPath (loaded root) n = q)
    by now apply getPath_registered.
  assert (Hfind : findByPath q (loaded root) =
                  Some (createParsedSymbol (loaded root) n)).
  { unfold findByPath. rewrite pathIndex_loaded_get, Hlast. simpl.
    unfold positive_ids in Hpos. rewrite Forall_forall in Hpos.
    specialize (Hpos n Hn). unfold truthy_number.
    destruct (Z.eqb_spec (id n) 0) as [He|_]; [lia|]. simpl.
    now rewrite getById_loaded. }
  rewrite Hpath, Hfind. repeat split.
Qed.

Lemma C8_witness :
  unique_ids libTree /\ positive_ids libTree /\
  getPath (loaded libTree) (leaf 3 "render" 2048) = "Lib.Widget.render" /\
  findByPath (getPath (loaded libTree) (leaf 3 "render" 2048))
    (loaded libTree) =
    Some (createParsedSymbol (loaded libTree) (leaf 3 "render" 2048)) /\
  option_map ParsedSymbol.reflection
    (findByPath (getPath (loaded libTree) (leaf 3 "render" 2048))
       (loaded libTree)) = Some (leaf 3 "render" 2048).
Proof.
  split; [exact libTree_unique|]. split; [exact libTree_positive|].
  apply (C8_path_round_trip libTree
           [(libTree, "Lib");
            (mkReflection 2 "Widget" (Some 128) None
               (Some [leaf 3 "render" 2048]) None, "Lib.Widget")]
           (leaf 3 "render" 2048) "Lib.Widget.render" []
           libTree_unique libTree_positive eq_refl).
  intros x [].
Defined.

(** ** Lookup by id *)

Lemma indexStep_keys l : forall m,
  NoDup (JsMap.keys m) -> NoDup (JsMap.keys (fold_left indexStep l m)).
Proof.
  induction l as [|x l IH]; intros m Hnd; simpl; [assumption|].
  apply IH. now apply keys_set_NoDup.
Qed.

Lemma afterParse_index_keys content docPath :
  NoDup (JsMap.keys (index (afterParse content docPath))).
Proof.
  destruct content as [error| |root]; try constructor.
  unfold afterParse, parse. cbn [fst].
  rewrite buildIndex_walk, index_indexAll. apply indexStep_keys. constructor.
Qed.

(** C9. Whatever the id, and whether the parser has loaded a document,
    failed to load one or not tried, [getById] completes normally; when
    the ID index holds a node under the id the result is that node, as
    stored; when the id is no key of the ID index the result is the
    not-found value, which no node equals. *)
Theorem C9_getById_found_or_not_found toLowerCase content docPath i :
  call toLowerCase (afterParse content docPath) (GetById i) =
    Normal (AReflection (getById i (afterParse content docPath))) /\
  (forall r, In (i, r) (index (afterParse content docPath)) ->
     getById i (afterParse content docPath) = Some r) /\
  (~ In i (JsMap.keys (index (afterParse content docPath))) ->
     getById i (afterParse content docPath) = None) /\
  (forall r, getById i (afterParse content docPath) = Some r ->
     In (i, r) (index (afterParse content docPath))).
Proof.
  split; [reflexivity|]. split; [|split].
  - intros r Hin. apply In_get; [apply afterParse_index_keys | assumption].
  - intros Hni. now apply get_None_keys.
  - intros r Hg. now apply get_In.
Qed.

Lemma C9_witness :
  getById 2 (afterParse (Document clashTree) "typedoc.json") =
    Some (leaf 2 "Widget" 128) /\
  getById 7 (afterParse (Document clashTree) "typedoc.json") = None.
Proof.
  pose proof (C9_getById_found_or_not_found ascii_toLowerCase
                (Document clashTree) "typedoc.json" 2) as (_ & Hfound & _).
  pose proof (C9_getById_found_or_not_found ascii_toLowerCase
                (Document clashTree) "typedoc.json" 7) as (_ & _ & Hmiss & _).
  split.
  - apply Hfound. simpl. tauto.
  - apply Hmiss. simpl. intros [He|[He|[He|[]]]]; discriminate He.
Defined.

(** ** Entries without a path *)

Lemma resolveIds_created p ids e :
  In e (resolveIds p ids) ->
  e = createParsedSymbol p (ParsedSymbol.reflection e).
Proof.
  intros Hin. apply resolveIds_In in Hin.
  now destruct Hin as (i & r & _ & _ & ->).
Qed.

Lemma entries_created toLowerCase p query answer e :
  call toLowerCase p query = Normal answer ->
  In e (entriesOf answer) ->
  e = createParsedSymbol p (ParsedSymbol.reflection e).
Proof.
  destruct query as [i|nm [|]|path|k|]; simpl; intros [= <-]; simpl;
    try tauto.
  - apply resolveIds_created.
  - intros Hin. apply in_flat_map in Hin. destruct Hin as ([k ids] & _ & Hin).
    destruct (includes (toLowerCase k) (toLowerCase nm)); [|destruct Hin].
    now apply resolveIds_created in Hin.
  - unfold findByPath.
    destruct (JsMap.get path (pathIndex p)) as [i|]; [|intros []].
    destruct (truthy_number i); [|intros []].
    destruct (JsMap.get i (index p)) as [r|]; [|intros []].
    intros [<-|[]]. reflexivity.
  - apply resolveIds_created.
Qed.

(** C10. When a node's id is the value of no entry of the path index,
    [getPath] returns the node's bare name, the entry built for the node
    has that name as its path, and so has every entry for the node in
    the result of any query. *)
Theorem C10_bare_name_when_no_path_entry toLowerCase p n :
  (forall q, ~ In (q, id n) (pathIndex p)) ->
  getPath p n = name n /\
  ParsedSymbol.path (createParsedSymbol p n) = name n /\
  (forall query answer e,
     call toLowerCase p query = Normal answer ->
     In e (entriesOf answer) ->
     ParsedSymbol.reflection e = n ->
     ParsedSymbol.path e = name n).
Proof.
  intros Hno. pose proof (getPath_no_entry p n Hno) as Hpath.
  repeat split; [assumption | assumption |].
  intros query answer e Hcall Hin Hr.
  rewrite (entries_created toLowerCase p query answer e Hcall Hin), Hr.
  assumption.
Qed.

Lemma C10_witness :
  (forall q, ~ In (q, id (leaf 2 "Widget" 128)) (pathIndex (loaded clashTree))) /\
  getPath (loaded clashTree) (leaf 2 "Widget" 128) = "Widget" /\
  map ParsedSymbol.path
    (findByName ascii_toLowerCase "Widget" true (loaded clashTree)) =
    ["Widget"; "Lib.Widget"].
Proof.
  assert (Hno : forall q,
            ~ In (q, id (leaf 2 "Widget" 128)) (pathIndex (loaded clashTree))).
  { simpl. intros q [He|[He|[]]]; discriminate He. }
  split; [exact Hno|].
  split; [|reflexivity].
  exact (proj1 (C10_bare_name_when_no_path_entry ascii_toLowerCase
                  (loaded clashTree) (leaf 2 "Widget" 128) Hno)).
Defined.

(** * Further properties of the parser *)

(** ** The ID index under repeated ids *)

Lemma index_get l : forall m i,
  JsMap.get i (fold_left indexStep l m) =
  match lastWithId i (map fst l) with
  | Some n => Some n
  | None => JsMap.get i m
  end.
Proof.
  induction l as [|x l IH]; intros m i; simpl; [reflexivity|].
  rewrite IH. destruct (lastWithId i (map fst l)); [reflexivity|].
  unfold indexStep.
  destruct (Z.eqb_spec (id (fst x)) i) as [<-|Hne].
  - apply get_set_same.
  - apply get_set_other. congruence.
Qed.

Lemma lastWithId_Some i l n :
  lastWithId i l = Some n -> In n l /\ id n = i.
Proof.
  induction l as [|m l IH]; simpl; [discriminate|].
  destruct (lastWithId i l) as [m'|].
  - intros [= ->]. destruct (IH eq_refl). auto.
  - destruct (Z.eqb_spec (id m) i); [|discriminate].
    intros [= ->]. auto.
Qed.

Lemma lastWithId_None i l :
  lastWithId i l = None -> ~ In i (map id l).
Proof.
  induction l as [|m l IH]; simpl; [tauto|].
  destruct (lastWithId i l) as [m'|]; [discriminate|].
  destruct (Z.eqb_spec (id m) i); [discriminate|].
  intros _ [He|Hin]; [contradiction | now apply IH].
Qed.

Lemma index_loaded_get root i :
  JsMap.get i (index (loaded root)) = lastWithId i (nodes root).
Proof.
  rewrite loaded_indexAll, index_indexAll, index_get. fold (nodes root).
  now destruct (lastWithId i (nodes root)).
Qed.

Lemma index_loaded_has root n :
  In n (nodes root) -> JsMap.get (id n) (index (loaded root)) <> None.
Proof.
  intros Hin Hg. rewrite index_loaded_get in Hg.
  apply lastWithId_None in Hg. apply Hg. now apply in_map.
Qed.

(** X1. After a load, whatever the ids, [getById] returns the node
    visited last among those that carry the id, and reports not found
    exactly for the ids no visited node carries. *)
Theorem getById_last_writer root i :
  getById i (loaded root) = lastWithId i (nodes root) /\
  (getById i (loaded root) = None <-> ~ In i (map id (nodes root))) /\
  (forall r, getById i (loaded root) = Some r ->
     reachable root r /\ id r = i).
Proof.
  unfold getById. rewrite index_loaded_get. repeat split.
  - apply lastWithId_None.
  - intros Hni. destruct (lastWithId i (nodes root)) as [n|] eqn:Hl;
      [|reflexivity].
    apply lastWithId_Some in Hl. destruct Hl as [Hin <-].
    exfalso. apply Hni. now apply in_map.
  - apply nodes_reachable. now apply lastWithId_Some in H.
  - now apply lastWithId_Some in H.
Qed.

Lemma set_length_ge {K V : Type} `{KeyEq K} (k : K) (v : V) (m : JsMap.t K V) :
  (List.length m <= List.length (JsMap.set k v m) <= S (List.length m))%nat /\
  (1 <= List.length (JsMap.set k v m))%nat.
Proof.
  induction m as [|[k' v'] m IH]; simpl; [lia|].
  destruct (key_eqb k k'); simpl; lia.
Qed.

Lemma indexStep_size l : forall m,
  (List.length m <= List.length (fold_left indexStep l m)
   <= List.length m + List.length l)%nat.
Proof.
  induction l as [|x l IH]; intros m; simpl; [lia|].
  specialize (IH (indexStep m x)). unfold indexStep in *.
  pose proof (set_length_ge (id (fst x)) (fst x) m). lia.
Qed.

Lemma loaded_size_bounds root :
  (1 <= JsMap.size (index (loaded root)) <= List.length (nodes root))%nat.
Proof.
  unfold JsMap.size. rewrite loaded_indexAll, index_indexAll.
  unfold nodes, visits. rewrite length_map, (walk_unfold root ""). cbv zeta.
  cbn [fold_left index JsMap.empty List.length].
  set (rest := flat_map _ _ ++ flat_map _ _).
  pose proof (indexStep_size rest (indexStep [] (root, fullPath "" (name root))))
    as Hsize.
  cbn [indexStep JsMap.set List.length fst] in Hsize.
  change (indexStep JsMap.empty (root, fullPath "" (name root)))
    with [(id root, root)]. lia.
Qed.

(** X2. After a successful load the total of the statistics is at least
    1 and at most the number of visited nodes, so a loaded parser is
    told from an unloaded one by a total above 0. *)
Theorem total_after_load_bounds root :
  (1 <= total (getStats (loaded root)) <= List.length (nodes root))%nat /\
  forall docPath, total (getStats (TypeDocParser_new docPath)) = 0%nat.
Proof. split; [apply loaded_size_bounds | reflexivity]. Qed.

(** ** Search results and the ID index *)

Lemma resolveIds_length p ids :
  (forall i, In i ids -> JsMap.get i (index p) <> None) ->
  List.length (resolveIds p ids) = List.length ids.
Proof.
  induction ids as [|i ids IH]; intros Hall; simpl; [reflexivity|].
  destruct (JsMap.get i (index p)) eqn:Hg.
  - simpl. f_equal. apply IH. intros j Hj. apply Hall. now right.
  - exfalso. now apply (Hall i); [left|].
Qed.

Lemma bucket_ids_indexed root (keep : Reflection -> bool) i :
  In i (map id (filter keep (nodes root))) ->
  JsMap.get i (index (loaded root)) <> None.
Proof.
  intros Hin. apply in_map_iff in Hin. destruct Hin as (n & <- & Hn).
  apply filter_In in Hn. now apply index_loaded_has.
Qed.

(** X3. Whatever the ids, the exact search for a name returns as many
    entries as visited nodes carry the name, and the search by kind as
    many as visited nodes carry that (non-zero) kind: no id of a bucket
    fails to resolve. *)
Theorem search_lengths_count_nodes toLowerCase root :
  (forall k, List.length (findByName toLowerCase k true (loaded root)) =
             List.length (filter (hasName k) (nodes root))) /\
  (forall k, List.length (findByKind k (loaded root)) =
             List.length (filter (hasKind k) (nodes root))).
Proof.
  split; intros k.
  - unfold findByName. rewrite nameIndex_loaded_bucket, resolveIds_length.
    + apply length_map.
    + apply bucket_ids_indexed.
  - unfold findByKind. rewrite kindIndex_loaded_bucket, resolveIds_length.
    + apply length_map.
    + apply bucket_ids_indexed.
Qed.

(** X4. On a loaded parser each count of the statistics is the number
    of entries the search by that kind returns. *)
Theorem stats_agree_with_findByKind root :
  let p := loaded root in
  classes (getStats p) = List.length (findByKind ReflectionKind_Class p) /\
  interfaces (getStats p) =
    List.length (findByKind ReflectionKind_Interface p) /\
  functions (getStats p) = List.length (findByKind ReflectionKind_Function p) /\
  variables (getStats p) = List.length (findByKind ReflectionKind_Variable p) /\
  types (getStats p) = List.length (findByKind ReflectionKind_TypeAlias p) /\
  enums (getStats p) = List.length (findByKind ReflectionKind_Enum p) /\
  modules (getStats p) = List.length (findByKind ReflectionKind_Module p).
Proof.
  assert (Hone : forall k,
            length_or_zero (JsMap.get k (kindIndex (loaded root))) =
            List.length (findByKind k (loaded root))).
  { intros k. unfold findByKind.
    rewrite resolveIds_length.
    - now destruct (JsMap.get k (kindIndex (loaded root))).
    - rewrite kindIndex_loaded_bucket. apply bucket_ids_indexed. }
  cbv zeta. repeat split; apply Hone.
Qed.

Lemma filter_hasKind_zero l : filter (hasKind 0) l = [].
Proof.
  induction l as [|n l IH]; simpl; [reflexivity|].
  replace (hasKind 0 n) with false; [assumption|].
  unfold hasKind, truthy_number. destruct (kind n) as [k'|]; [|reflexivity].
  now destruct (Z.eqb_spec k' 0).
Qed.

(** X5. With unique ids the search by kind returns the entries of the
    visited nodes of that kind, in traversal order; a kind of 0 is never
    found. *)
Theorem findByKind_in_traversal_order root k :
  unique_ids root ->
  findByKind k (loaded root) =
    map (createParsedSymbol (loaded root)) (filter (hasKind k) (nodes root)) /\
  map ParsedSymbol.reflection (findByKind k (loaded root)) =
    filter (hasKind k) (nodes root) /\
  findByKind 0 (loaded root) = [].
Proof.
  intros Hu.
  assert (Hfind : forall k', findByKind k' (loaded root) =
            map (createParsedSymbol (loaded root))
                (filter (hasKind k') (nodes root))).
  { intros k'. unfold findByKind. rewrite kindIndex_loaded_bucket.
    apply resolve_loaded; [assumption|].
    intros n Hn. now apply filter_In in Hn. }
  repeat split.
  - apply Hfind.
  - rewrite Hfind, map_map. simpl. apply map_id.
  - now rewrite Hfind, filter_hasKind_zero.
Qed.

Lemma findByKind_in_traversal_order_witness :
  unique_ids libTree /\
  map ParsedSymbol.reflection (findByKind 2048 (loaded libTree)) =
    [leaf 3 "render" 2048].
Proof.
  split; [exact libTree_unique|].
  exact (proj1 (proj2
    (findByKind_in_traversal_order libTree 2048 libTree_unique))).
Defined.

Lemma entries_from_index toLowerCase p query answer e :
  call toLowerCase p query = Normal answer ->
  In e (entriesOf answer) ->
  exists i r, JsMap.get i (index p) = Some r /\ e = createParsedSymbol p r.
Proof.
  assert (Hres : forall ids, In e (resolveIds p ids) ->
            exists i r, JsMap.get i (index p) = Some r /\
                        e = createParsedSymbol p r).
  { intros ids Hin. apply resolveIds_In in Hin.
    destruct Hin as (i & r & _ & Hg & He). now exists i, r. }
  destruct query as [i|nm [|]|path|k|]; simpl; intros [= <-]; simpl;
    try tauto.
  - apply Hres.
  - intros Hin. apply in_flat_map in Hin. destruct Hin as ([k ids] & _ & Hin).
    destruct (includes (toLowerCase k) (toLowerCase nm)); [|destruct Hin].
    now apply Hres in Hin.
  - unfold findByPath.
    destruct (JsMap.get path (pathIndex p)) as [i|]; [|intros []].
    destruct (truthy_number i); [|intros []].
    destruct (JsMap.get i (index p)) as [r|] eqn:Hg; [|intros []].
    intros [<-|[]]. now exists i, r.
  - apply Hres.
Qed.

(** X6. Every entry that a query on a loaded parser returns can be
    looked up again: [getById] on the entry's id returns the entry's
    node, which is a node of the document and carries the entry's id
    and name. *)
Theorem entries_resolve_by_id toLowerCase root query answer e :
  call toLowerCase (loaded root) query = Normal answer ->
  In e (entriesOf answer) ->
  getById (ParsedSymbol.id e) (loaded root) =
    Some (ParsedSymbol.reflection e) /\
  reachable root (ParsedSymbol.reflection e) /\
  ParsedSymbol.id e = id (ParsedSymbol.reflection e) /\
  ParsedSymbol.name e = name (ParsedSymbol.reflection e).
Proof.
  intros Hcall Hin.
  destruct (entries_from_index _ _ _ _ _ Hcall Hin) as (i & r & Hg & ->).
  rewrite index_loaded_get in Hg. pose proof (lastWithId_Some _ _ _ Hg) as [Hr Hi].
  cbn [ParsedSymbol.id ParsedSymbol.reflection ParsedSymbol.name
       createParsedSymbol].
  repeat split.
  - unfold getById. rewrite index_loaded_get. now rewrite Hi.
  - now apply nodes_reachable.
Qed.

Lemma entries_resolve_by_id_witness :
  getById 3 (loaded clashTree) = Some (leaf 3 "Widget" 256).
Proof.
  refine (proj1 (entries_resolve_by_id ascii_toLowerCase clashTree
            (FindByPath "Lib.Widget")
            (ASymbol (Some (createParsedSymbol (loaded clashTree)
                              (leaf 3 "Widget" 256))))
            (createParsedSymbol (loaded clashTree) (leaf 3 "Widget" 256))
            eq_refl _)).
  simpl. tauto.
Defined.

(** ** Loading twice *)

Lemma get_set_keeps {K V : Type} `{KeyEq K} (k k' : K) (v : V)
    (m : JsMap.t K V) :
  JsMap.get k m <> None -> JsMap.get k (JsMap.set k' v m) <> None.
Proof.
  intros Hg. destruct (key_eqb_spec k k') as [->|Hne].
  - now rewrite get_set_same.
  - now rewrite get_set_other.
Qed.

Lemma indexStep_keys_kept l : forall m,
  (forall x, In x l -> JsMap.get (id (fst x)) m <> None) ->
  JsMap.keys (fold_left indexStep l m) = JsMap.keys m.
Proof.
  induction l as [|x l IH]; intros m Hall; simpl; [reflexivity|].
  rewrite IH.
  - unfold indexStep. apply keys_set_present. apply Hall. now left.
  - intros y Hy. unfold indexStep. apply get_set_keeps. apply Hall. now right.
Qed.

Lemma reloaded_indexAll root :
  reloaded root =
  indexAll (visits root)
    {| index := index (loaded root); nameIndex := nameIndex (loaded root);
       pathIndex := pathIndex (loaded root);
       kindIndex := kindIndex (loaded root);
       doc := Some root; docPath := docPath (loaded root) |}.
Proof. unfold reloaded, parse, visits. cbn [fst]. apply buildIndex_walk. Qed.

Lemma reloaded_index_get root i :
  JsMap.get i (index (reloaded root)) = JsMap.get i (index (loaded root)).
Proof.
  rewrite reloaded_indexAll, index_indexAll, index_get. cbn [index].
  fold (nodes root). rewrite index_loaded_get.
  now destruct (lastWithId i (nodes root)).
Qed.

(** X7. [parse] does not clear the indices.  Called a second time with
    the same document it leaves the ID index answering as before and
    the total unchanged, but appends every id to its name and kind
    buckets once more: the kind counts of the statistics double and the
    exact search returns every entry twice over. *)
Theorem second_parse_doubles_buckets toLowerCase root :
  (forall i, getById i (reloaded root) = getById i (loaded root)) /\
  total (getStats (reloaded root)) = total (getStats (loaded root)) /\
  (forall k,
     or_empty (JsMap.get k (kindIndex (reloaded root))) =
     or_empty (JsMap.get k (kindIndex (loaded root))) ++
     or_empty (JsMap.get k (kindIndex (loaded root)))) /\
  (forall k,
     or_empty (JsMap.get k (nameIndex (reloaded root))) =
     or_empty (JsMap.get k (nameIndex (loaded root))) ++
     or_empty (JsMap.get k (nameIndex (loaded root)))) /\
  classes (getStats (reloaded root)) =
    (2 * classes (getStats (loaded root)))%nat /\
  (forall k,
     List.length (findByName toLowerCase k true (reloaded root)) =
     (2 * List.length (findByName toLowerCase k true (loaded root)))%nat).
Proof.
  assert (Hkind : forall k,
     or_empty (JsMap.get k (kindIndex (reloaded root))) =
     or_empty (JsMap.get k (kindIndex (loaded root))) ++
     or_empty (JsMap.get k (kindIndex (loaded root)))).
  { intros k. rewrite reloaded_indexAll, kindIndex_indexAll, kind_bucket.
    cbn [kindIndex]. fold (nodes root). now rewrite kindIndex_loaded_bucket. }
  assert (Hname : forall k,
     or_empty (JsMap.get k (nameIndex (reloaded root))) =
     or_empty (JsMap.get k (nameIndex (loaded root))) ++
     or_empty (JsMap.get k (nameIndex (loaded root)))).
  { intros k. rewrite reloaded_indexAll, nameIndex_indexAll, name_bucket.
    cbn [nameIndex]. fold (nodes root). now rewrite nameIndex_loaded_bucket. }
  assert (Hlen : forall o, length_or_zero o = List.length (or_empty o)).
  { now intros [l|]. }
  split; [|split; [|split; [|split; [|split]]]].
  - intros i. apply reloaded_index_get.
  - unfold getStats, total, JsMap.size.
    rewrite <- !(length_map fst). change (map fst ?m) with (JsMap.keys m).
    f_equal. rewrite reloaded_indexAll, index_indexAll. cbn [index].
    apply indexStep_keys_kept. intros x Hx.
    apply index_loaded_has. unfold nodes. now apply in_map.
  - exact Hkind.
  - exact Hname.
  - unfold getStats, classes. rewrite !Hlen, Hkind, length_app. lia.
  - intros k. unfold findByName. rewrite Hname.
    rewrite !resolveIds_length.
    + rewrite length_app. lia.
    + rewrite nameIndex_loaded_bucket. apply bucket_ids_indexed.
    + intros i Hi. rewrite reloaded_index_get.
      rewrite nameIndex_loaded_bucket in Hi. apply in_app_or in Hi.
      destruct Hi as [Hi|Hi]; now apply bucket_ids_indexed in Hi.
Qed.

(** ** Paths that were never registered *)

Lemma lastAt_None_inv q l :
  lastAt q l = None -> forall n, ~ In (n, q) l.
Proof.
  induction l as [|[m q'] l IH]; simpl; [tauto|].
  destruct (lastAt q l); [discriminate|].
  destruct (String.eqb_spec q q') as [->|Hne]; [discriminate|].
  intros _ n [[= _ He]|Hin]; [congruence | now apply (IH eq_refl n)].
Qed.

(** X8. On a loaded tree with unique positive ids, [findByPath] reports
    not found exactly for the strings that the traversal computed as
    the path of no node. *)
Theorem findByPath_none_iff_no_visit root q :
  unique_ids root -> positive_ids root ->
  (findByPath q (loaded root) = None <-> forall n, ~ In (n, q) (visits root)).
Proof.
  intros Hu Hpos. unfold findByPath. rewrite pathIndex_loaded_get.
  destruct (lastAt q (visits root)) as [n|] eqn:Hl; simpl.
  - pose proof (lastAt_In _ _ _ Hl) as Hin.
    assert (Hn : In n (nodes root)) by (apply nodes_visits; now exists q).
    unfold positive_ids in Hpos. rewrite Forall_forall in Hpos.
    specialize (Hpos n Hn). unfold truthy_number.
    destruct (Z.eqb_spec (id n) 0) as [He|_]; [lia|]. simpl.
    rewrite getById_loaded by assumption.
    split; [discriminate|]. intros Hno. now destruct (Hno n).
  - split; [|reflexivity]. intros _. now apply lastAt_None_inv.
Qed.

Lemma findByPath_none_iff_no_visit_witness :
  unique_ids libTree /\ positive_ids libTree /\
  findByPath "Lib.render" (loaded libTree) = None.
Proof.
  split; [exact libTree_unique|]. split; [exact libTree_positive|].
  apply (findByPath_none_iff_no_visit libTree "Lib.render"
           libTree_unique libTree_positive).
  simpl. intros n [He|[He|[He|[]]]]; discriminate He.
Defined.

(** ** The order of the partial search *)

Lemma keys_set_string {V : Type} (k : string) (v : V) (m : JsMap.t string V) :
  JsMap.keys (JsMap.set k v m) = addFirst (JsMap.keys m) k.
Proof.
  unfold addFirst. induction m as [|[k' v'] m IH]; simpl; [reflexivity|].
  destruct (String.eqb k k'); simpl; [reflexivity|].
  rewrite IH. now destruct (existsb (String.eqb k) (JsMap.keys m)).
Qed.

Lemma nameStep_keys_order l : forall m,
  JsMap.keys (fold_left nameStep l m) =
  fold_left addFirst (map (fun x => name (fst x)) l) (JsMap.keys m).
Proof.
  induction l as [|x l IH]; intros m; simpl; [reflexivity|].
  rewrite IH. unfold nameStep. now rewrite keys_set_string.
Qed.

Lemma map_from_keys {K V : Type} (f : K -> V) (m : JsMap.t K V) :
  (forall k v, In (k, v) m -> v = f k) ->
  m = map (fun k => (k, f k)) (JsMap.keys m).
Proof.
  induction m as [|[k v] m IH]; intros Hall; simpl; [reflexivity|].
  rewrite <- IH by (intros k' v' Hin; apply Hall; now right).
  now rewrite (Hall k v) by now left.
Qed.

(** X9. The partial search goes through the names of the document in
    the order in which the traversal first met them; with unique ids it
    returns, for each name that contains the query when both are
    lower-cased, the entries of the nodes of that name in traversal
    order. *)
Theorem partial_search_grouped_by_first_occurrence toLowerCase root q :
  JsMap.keys (nameIndex (loaded root)) =
    firstOccurrences (map name (nodes root)) /\
  (unique_ids root ->
   findByName toLowerCase q false (loaded root) =
   flat_map
     (fun k =>
        if includes (toLowerCase k) (toLowerCase q)
        then map (createParsedSymbol (loaded root))
                 (filter (hasName k) (nodes root))
        else [])
     (firstOccurrences (map name (nodes root)))).
Proof.
  assert (Hkeys : JsMap.keys (nameIndex (loaded root)) =
                  firstOccurrences (map name (nodes root))).
  { rewrite loaded_indexAll, nameIndex_indexAll, nameStep_keys_order.
    unfold firstOccurrences, nodes. now rewrite map_map. }
  split; [exact Hkeys|]. intros Hu.
  unfold findByName. rewrite <- Hkeys.
  rewrite (map_from_keys
             (fun k => map id (filter (hasName k) (nodes root)))
             (nameIndex (loaded root))) at 1
    by (intros k v; apply nameIndex_loaded_In).
  rewrite flat_map_concat_map, map_map, <- flat_map_concat_map.
  apply flat_map_ext. intros k.
  destruct (includes (toLowerCase k) (toLowerCase q)); [|reflexivity].
  apply resolve_loaded; [assumption|].
  intros n Hn. now apply filter_In in Hn.
Qed.

Lemma partial_search_grouped_by_first_occurrence_witness :
  unique_ids clashTree /\
  map ParsedSymbol.id
    (findByName ascii_toLowerCase "I" false (loaded clashTree)) = [1; 2; 3].
Proof.
  split; [exact clashTree_unique|].
  rewrite (proj2 (partial_search_grouped_by_first_occurrence
                    ascii_toLowerCase clashTree "I") clashTree_unique).
  reflexivity.
Defined.

(** * Properties of the callers *)

(** ** The read-me excerpt *)

Lemma string_length_append s1 s2 :
  String.length (s1 ++ s2)%string = (String.length s1 + String.length s2)%nat.
Proof. induction s1 as [|c s1 IH]; simpl; [reflexivity | now rewrite IH]. Qed.

Lemma substring0_length m : forall s,
  String.length (String.substring 0 m s) = Nat.min m (String.length s).
Proof.
  induction m as [|m IH]; intros [|c s]; simpl; try reflexivity.
  now rewrite IH.
Qed.

Lemma substring0_prefix m : forall s,
  String.prefix (String.substring 0 m s) s = true.
Proof.
  induction m as [|m IH]; intros [|c s]; simpl; try reflexivity.
  rewrite IH. now destruct (ascii_dec c c).
Qed.

Lemma formatReadme_length readme maxLength :
  0 <= maxLength ->
  (String.length (formatReadme readme maxLength) <= Z.to_nat maxLength + 3)%nat.
Proof.
  intros Hm. unfold formatReadme. cbv zeta.
  destruct (Z.gtb_spec (Z.of_nat (String.length (joinText readme))) maxLength).
  - rewrite string_length_append, substring0_length. simpl. lia.
  - lia.
Qed.

(** X10. For a limit that is not negative, [formatReadme] returns the
    joined text itself when it is no longer than the limit, and
    otherwise its first [maxLength] characters followed by three dots:
    the result is never longer than the limit plus 3. *)
Theorem formatReadme_bounded readme maxLength :
  0 <= maxLength ->
  (String.length (formatReadme readme maxLength) <= Z.to_nat maxLength + 3)%nat /\
  (Z.of_nat (String.length (joinText readme)) <= maxLength ->
   formatReadme readme maxLength = joinText readme) /\
  (maxLength < Z.of_nat (String.length (joinText readme)) ->
   exists head,
     formatReadme readme maxLength = (head ++ "...")%string /\
     String.prefix head (joinText readme) = true /\
     String.length head = Z.to_nat maxLength).
Proof.
  intros Hm. pose proof (formatReadme_length readme maxLength Hm) as Hlen.
  unfold formatReadme in *. cbv zeta in *.
  destruct (Z.gtb_spec (Z.of_nat (String.length (joinText readme))) maxLength)
    as [Hlong|Hshort].
  - repeat split.
    + exact Hlen.
    + lia.
    + intros _. exists (String.substring 0 (Z.to_nat maxLength) (joinText readme)).
      repeat split; [apply substring0_prefix|].
      rewrite substring0_length. lia.
  - repeat split; [lia | lia].
Qed.

Lemma formatReadme_bounded_witness :
  0 <= 4 /\
  (String.length
     (formatReadme [CommentDisplayPart.mk "text" "TypeDoc ";
                    CommentDisplayPart.mk "code" "MCP"] 4) <= Z.to_nat 4 + 3)%nat.
Proof.
  split; [lia|].
  exact (proj1 (formatReadme_bounded
                  [CommentDisplayPart.mk "text" "TypeDoc ";
                   CommentDisplayPart.mk "code" "MCP"] 4 ltac:(lia))).
Defined.

(** ** The project overview *)

Section OverviewFacts.
Variable packageVersion : Reflection -> option string.
Variable readme : Reflection -> option (list CommentDisplayPart.t).

(** On a parser that holds no document -- fresh, or after a load
    that failed -- [getProjectInfo] returns null and the overview names
    the project "Unknown Project", with no version, no description and
    statistics that are all 0. *)
Remark overview_without_document docPath :
  getProjectInfo packageVersion readme (TypeDocParser_new docPath) = None /\
  Overview.body
    (getProjectOverview packageVersion readme (TypeDocParser_new docPath)) =
    noOverview /\
  (forall error,
     Overview.body
       (getProjectOverview packageVersion readme
          (afterParse (Unreadable error) docPath)) = noOverview) /\
  Overview.body
    (getProjectOverview packageVersion readme (afterParse Falsy docPath)) =
    noOverview.
Proof. repeat split. Qed.

(** X11. On a loaded parser the overview is that of the root: its name,
    or "Unknown Project" when the name is empty; its package version; a
    description, when the root has a read-me, of at most 503 characters;
    and a symbol total of at least 1. *)
Theorem overview_of_loaded_document root :
  let body :=
    Overview.body (getProjectOverview packageVersion readme (loaded root)) in
  Overview.name body =
    (if String.eqb (name root) "" then "Unknown Project" else name root) /\
  Overview.version body = packageVersion root /\
  (Overview.description body = None <-> readme root = None) /\
  (forall text, Overview.description body = Some text ->
     (String.length text <= 503)%nat) /\
  (1 <= OverviewStats.totalSymbols (Overview.stats body))%nat.
Proof.
  assert (Hdoc : doc (loaded root) = Some root).
  { rewrite loaded_indexAll. generalize (visits root).
    assert (Hkeep : forall l p, doc (indexAll l p) = doc p).
    { induction l as [|x l IH]; intros p; simpl; [reflexivity|].
      now rewrite IH. }
    intros l. now rewrite Hkeep. }
  cbv zeta. unfold getProjectOverview, getProjectInfo. rewrite Hdoc.
  cbn [Overview.body Overview.name Overview.version Overview.description
       Overview.stats OverviewStats.totalSymbols ProjectInfo.name
       ProjectInfo.version ProjectInfo.readme].
  repeat split.
  - now destruct (name root).
  - destruct (readme root); [discriminate | reflexivity].
  - destruct (readme root); [discriminate | reflexivity].
  - intros text. destruct (readme root) as [r|]; [|discriminate].
    intros [= <-].
    pose proof (formatReadme_length r 500 ltac:(lia)) as Hb.
    change (Z.to_nat 500 + 3)%nat with 503%nat in Hb. exact Hb.
  - pose proof (loaded_size_bounds root) as Hs.
    change (total (getStats (loaded root)))
      with (JsMap.size (index (loaded root))). lia.
Qed.

End OverviewFacts.

(** ** The tools *)

Lemma filter_map_comm {A B : Type} (f : A -> B) (keep : B -> bool) l :
  filter keep (map f l) = map f (filter (fun a => keep (f a)) l).
Proof.
  induction l as [|a l IH]; simpl; [reflexivity|].
  destruct (keep (f a)); simpl; now rewrite IH.
Qed.

Lemma filter_both {A : Type} (f g : A -> bool) l :
  filter g (filter f l) = filter (fun a => f a && g a) l.
Proof.
  induction l as [|a l IH]; simpl; [reflexivity|].
  destruct (f a); simpl; [destruct (g a)|]; now rewrite IH.
Qed.

Lemma resolveIds_intro p ids i r :
  In i ids -> JsMap.get i (index p) = Some r ->
  In (createParsedSymbol p r) (resolveIds p ids).
Proof.
  intros Hin Hg. induction ids as [|j ids IH]; simpl; [destruct Hin|].
  destruct Hin as [->|Hin].
  - rewrite Hg. now left.
  - destruct (JsMap.get j (index p)); [right|]; now apply IH.
Qed.

Lemma findSymbol_kindMap_nonzero K : truthy_number (findSymbol_kindMap K) = true.
Proof. now destruct K. Qed.

Section ToolFacts.
Variable comment : Reflection -> option Comment.t.
Variable sources : Reflection -> option (list SourceRef.t).
Variable toLowerCase : string -> string.
Variable trim : string -> string.

(** X12. On a loaded tree with unique ids, [findSymbol] with a kind
    filter and exact matching (the default) returns the summaries of
    the visited nodes that carry both the name and the kind the filter
    stands for, in traversal order. *)
Theorem findSymbol_by_name_and_kind root params K :
  unique_ids root ->
  FindSymbolParams.kind params = Some K ->
  FindSymbolParams.exact params <> Some false ->
  findSymbol sources toLowerCase (loaded root) params =
  map (fun n => summarize sources (createParsedSymbol (loaded root) n))
      (filter (fun n => hasName (FindSymbolParams.name params) n &&
                        kindIs (findSymbol_kindMap K) n)
              (nodes root)).
Proof.
  intros Hu HK Hexact. unfold findSymbol. rewrite HK.
  assert (He : match FindSymbolParams.exact params with
               | Some b => b | None => true end = true).
  { destruct (FindSymbolParams.exact params) as [[|]|]; congruence. }
  rewrite He. cbv zeta.
  assert (Hfind : findByName toLowerCase (FindSymbolParams.name params) true
                    (loaded root) =
                  map (createParsedSymbol (loaded root))
                      (filter (hasName (FindSymbolParams.name params))
                              (nodes root))).
  { unfold findByName. rewrite nameIndex_loaded_bucket.
    apply resolve_loaded; [assumption|].
    intros n Hn. now apply filter_In in Hn. }
  rewrite Hfind, <- filter_both.
  destruct (filter (hasName (FindSymbolParams.name params)) (nodes root))
    as [|n ns] eqn:Hl.
  - reflexivity.
  - assert (Hpos : (0 <? Z.of_nat (List.length
                      (map (createParsedSymbol (loaded root)) (n :: ns)))) = true).
    { apply Z.ltb_lt. simpl. lia. }
    rewrite Hpos, filter_map_comm, map_map. reflexivity.
Qed.

(** X13. Whatever the ids, every symbol that [findSymbol] returns under
    a kind filter on a loaded parser is the summary of an entry that
    [findByKind] returns for the kind the filter stands for. *)
Theorem findSymbol_kind_within_findByKind root params K s :
  FindSymbolParams.kind params = Some K ->
  In s (findSymbol sources toLowerCase (loaded root) params) ->
  exists e, In e (findByKind (findSymbol_kindMap K) (loaded root)) /\
            s = summarize sources e.
Proof.
  intros HK Hin. unfold findSymbol in Hin. rewrite HK in Hin.
  cbv zeta in Hin. apply in_map_iff in Hin. destruct Hin as (e & <- & He).
  exists e. split; [|reflexivity].
  set (exact := match FindSymbolParams.exact params with
                | Some b => b | None => true end) in He.
  set (found := findByName toLowerCase (FindSymbolParams.name params) exact
                  (loaded root)) in He.
  assert (Hfound : In e found /\
            kindIs (findSymbol_kindMap K) (ParsedSymbol.reflection e) = true).
  { destruct (0 <? Z.of_nat (List.length found)) eqn:Hlen.
    - now apply filter_In in He.
    - apply Z.ltb_ge in Hlen.
      destruct found; [destruct He | cbn [List.length] in Hlen; lia]. }
  destruct Hfound as [Hf Hk].
  destruct (entries_from_index toLowerCase (loaded root)
              (FindByName (FindSymbolParams.name params) exact)
              (ASymbols found) e eq_refl Hf) as (i & r & Hg & ->).
  cbn [ParsedSymbol.reflection createParsedSymbol] in Hk.
  pose proof Hg as Hg'. rewrite index_loaded_get in Hg'.
  apply lastWithId_Some in Hg'. destruct Hg' as [Hr Hi].
  unfold findByKind. rewrite kindIndex_loaded_bucket.
  apply resolveIds_intro with i; [|assumption].
  rewrite <- Hi. apply in_map, filter_In. split; [assumption|].
  unfold kindIs in Hk. unfold hasKind.
  destruct (kind r) as [k|]; [|discriminate].
  apply Z.eqb_eq in Hk. subst k.
  now rewrite findSymbol_kindMap_nonzero, Z.eqb_refl.
Qed.

End ToolFacts.

Lemma findSymbol_by_name_and_kind_witness :
  unique_ids clashTree /\
  map FoundSymbol.id
    (findSymbol (fun _ => None) ascii_toLowerCase (loaded clashTree)
       (FindSymbolParams.mk "Widget" (Some kind_interface) None)) = [3].
Proof.
  split; [exact clashTree_unique|].
  rewrite (findSymbol_by_name_and_kind (fun _ => None) ascii_toLowerCase
             clashTree
             (FindSymbolParams.mk "Widget" (Some kind_interface) None)
             kind_interface clashTree_unique eq_refl);
    [reflexivity | discriminate].
Defined.

Lemma findSymbol_kind_within_findByKind_witness :
  exists e, In e (findByKind ReflectionKind_Class (loaded libTree)) /\
            FoundSymbol.mk "Widget" "Class" "Lib.Widget" 2 None =
            summarize (fun _ => None) e.
Proof.
  apply (findSymbol_kind_within_findByKind (fun _ => None) ascii_toLowerCase
           libTree (FindSymbolParams.mk "wid" (Some kind_class) (Some false))
           kind_class (FoundSymbol.mk "Widget" "Class" "Lib.Widget" 2 None)
           eq_refl).
  simpl. tauto.
Defined.

Section TagFacts.
Variable comment : Reflection -> option Comment.t.
Variable sources : Reflection -> option (list SourceRef.t).
Variable trim : string -> string.

Lemma searchByTag_unfold p params :
  searchByTag comment sources trim p params =
  flat_map
    (fun entry : Z * Reflection =>
       optionList
         (searchByTag_visit comment sources trim p
            (normalizedTag (SearchByTagParams.tag params))
            (SearchByTagParams.value params) (snd entry)))
    (index p).
Proof. reflexivity. Qed.

Lemma searchByTag_visit_empty_value p tagName r :
  searchByTag_visit comment sources trim p tagName (Some "") r =
  searchByTag_visit comment sources trim p tagName None r.
Proof. reflexivity. Qed.

(** X14. [searchByTag] gives the same results for a tag written without
    its [@] as for the tag written with it, and the same results for an
    empty value filter as for none. *)
Theorem searchByTag_normalises_parameters p tag value :
  startsWith tag "@" = false ->
  searchByTag comment sources trim p (SearchByTagParams.mk tag value) =
  searchByTag comment sources trim p
    (SearchByTagParams.mk ("@" ++ tag)%string value) /\
  searchByTag comment sources trim p (SearchByTagParams.mk tag (Some "")) =
  searchByTag comment sources trim p (SearchByTagParams.mk tag None).
Proof.
  intros Hat. split.
  - rewrite !searchByTag_unfold. cbn [SearchByTagParams.tag].
    unfold normalizedTag. rewrite Hat.
    replace (startsWith ("@" ++ tag) "@") with true; [reflexivity|].
    unfold startsWith. simpl. now destruct tag.
  - reflexivity.
Qed.

(** X15. Every result of [searchByTag] on a loaded parser stems from a
    node of the document whose comment has a block tag of the
    normalised name: the result carries the node's name and path and
    the trimmed text of the first such tag, and that text contains the
    value filter when one is given and not empty. *)
Theorem searchByTag_results_are_tagged_nodes root params s :
  In s (searchByTag comment sources trim (loaded root) params) ->
  exists n c tags t,
    reachable root n /\
    comment n = Some c /\ Comment.blockTags c = Some tags /\
    find (fun t' => String.eqb (CommentTag.tag t')
                      (normalizedTag (SearchByTagParams.tag params))) tags =
      Some t /\
    In t tags /\
    CommentTag.tag t = normalizedTag (SearchByTagParams.tag params) /\
    TaggedSymbol.name s = name n /\
    TaggedSymbol.path s = getPath (loaded root) n /\
    TaggedSymbol.tagValue s = trim (joinText (CommentTag.content t)) /\
    (forall v, SearchByTagParams.value params = Some v -> v <> "" ->
       includes (TaggedSymbol.tagValue s) v = true).
Proof.
  rewrite searchByTag_unfold. intros Hin. apply in_flat_map in Hin.
  destruct Hin as ([i n] & Hentry & Hs). cbn [snd] in Hs.
  apply In_get in Hentry; [|apply (afterParse_index_keys (Document root))].
  rewrite index_loaded_get in Hentry. apply lastWithId_Some in Hentry.
  destruct Hentry as [Hn _]. unfold searchByTag_visit in Hs.
  destruct (comment n) as [c|] eqn:Hc; [|destruct Hs].
  destruct (Comment.blockTags c) as [tags|] eqn:Htags; [|destruct Hs].
  destruct (find _ tags) as [t|] eqn:Hfind; [|destruct Hs].
  pose proof (find_some _ _ Hfind) as [Ht Htag].
  apply String.eqb_eq in Htag.
  exists n, c, tags, t.
  destruct (SearchByTagParams.value params) as [v|] eqn:Hv.
  - destruct (truthy_string v && negb (includes (trim (joinText (CommentTag.content t))) v))
      eqn:Hskip; [destruct Hs|].
    destruct Hs as [<-|[]].
    cbn [TaggedSymbol.name TaggedSymbol.path TaggedSymbol.tagValue].
    split; [now apply nodes_reachable|]. repeat split; try assumption.
    intros v' [= <-] Hne. destruct v as [|a v]; [congruence|].
    simpl in Hskip. now destruct (includes _ _).
  - destruct Hs as [<-|[]].
    cbn [TaggedSymbol.name TaggedSymbol.path TaggedSymbol.tagValue].
    split; [now apply nodes_reachable|]. repeat split; try assumption.
    discriminate.
Qed.

(** X16. On a loaded tree with unique ids, [searchByTag] examines the
    visited nodes once each, in traversal order: its results are those
    the loop body gives for the nodes of the traversal, in that order. *)
Theorem searchByTag_in_traversal_order root params :
  unique_ids root ->
  searchByTag comment sources trim (loaded root) params =
  flat_map
    (fun n =>
       optionList
         (searchByTag_visit comment sources trim (loaded root)
            (normalizedTag (SearchByTagParams.tag params))
            (SearchByTagParams.value params) n))
    (nodes root).
Proof.
  intros Hu. rewrite searchByTag_unfold, index_loaded by assumption.
  rewrite !flat_map_concat_map, map_map. reflexivity.
Qed.

End TagFacts.

(** A document whose method [render] is marked as deprecated. *)
Lemma searchByTag_normalises_parameters_witness :
  startsWith "deprecated" "@" = false /\
  searchByTag
    (fun r => if id r =? 3
              then Some (Comment.mk None
                     (Some [CommentTag.mk "@deprecated"
                              [CommentDisplayPart.mk "text" "use draw"]]))
              else None)
    (fun _ => None) (fun text => text) (loaded libTree)
    (SearchByTagParams.mk "deprecated" None) =
  [TaggedSymbol.mk "render" "Method" "Lib.Widget.render" "use draw" None].
Proof.
  split; [reflexivity|].
  rewrite (proj1 (searchByTag_normalises_parameters _ _ _ (loaded libTree)
                    "deprecated" None eq_refl)).
  reflexivity.
Defined.

Lemma searchByTag_results_are_tagged_nodes_witness :
  exists n, reachable libTree n /\ name n = "render".
Proof.
  destruct (searchByTag_results_are_tagged_nodes
    (fun r => if id r =? 3
              then Some (Comment.mk None
                     (Some [CommentTag.mk "@deprecated"
                              [CommentDisplayPart.mk "text" "use draw"]]))
              else None)
    (fun _ => None) (fun text => text) libTree
    (SearchByTagParams.mk "@deprecated" (Some "draw"))
    (TaggedSymbol.mk "render" "Method" "Lib.Widget.render" "use draw" None))
    as (n & c & tags & t & Hn & _ & _ & _ & _ & _ & Hname & _).
  - simpl. tauto.
  - exists n. split; [assumption | now rewrite <- Hname].
Defined.

Lemma searchByTag_in_traversal_order_witness :
  unique_ids libTree /\
  List.length
    (searchByTag
       (fun _ => Some (Comment.mk None (Some [CommentTag.mk "@beta" []])))
       (fun _ => None) (fun text => text) (loaded libTree)
       (SearchByTagParams.mk "beta" None)) = 3%nat.
Proof.
  split; [exact libTree_unique|].
  rewrite (searchByTag_in_traversal_order _ _ _ libTree
             (SearchByTagParams.mk "beta" None) libTree_unique).
  reflexivity.
Defined.

(** ** Documentation of one symbol *)

Section DocumentationFacts.
Variable Documentation : Type.
Variable assembleDocumentation : Reflection -> Documentation.

(** X17. On a loaded tree with unique positive ids, for a node whose
    path is not empty and is given to no later visit, asking for the
    documentation by that path and asking by the node's id give the
    same answer, the documentation of that node; and when an id is
    given, a path given with it plays no part. *)
Theorem getDocumentation_by_path_and_by_id root l1 n q l2 :
  unique_ids root -> positive_ids root ->
  visits root = l1 ++ (n, q) :: l2 ->
  (forall x, In x l2 -> snd x <> q) ->
  q <> "" ->
  getDocumentation Documentation assembleDocumentation (loaded root)
    (GetDocumentationParams.mk None (Some q)) =
    Normal (assembleDocumentation n) /\
  forall path,
    getDocumentation Documentation assembleDocumentation (loaded root)
      (GetDocumentationParams.mk (Some (id n)) path) =
    Normal (assembleDocumentation n).
Proof.
  intros Hu Hpos Hv Hno Hq.
  assert (Hlast : lastAt q (visits root) = Some n).
  { rewrite Hv. now apply lastAt_split. }
  assert (Hn : In n (nodes root)).
  { apply nodes_visits. exists q. now apply lastAt_In. }
  pose proof (getById_loaded root n Hu Hn) as Hget.
  split.
  - unfold getDocumentation. cbn [GetDocumentationParams.symbolId
      GetDocumentationParams.symbolPath].
    replace (truthy_string q) with true by (now destruct q).
    unfold findByPath. rewrite pathIndex_loaded_get, Hlast. simpl.
    unfold positive_ids in Hpos. rewrite Forall_forall in Hpos.
    specialize (Hpos n Hn). unfold truthy_number.
    destruct (Z.eqb_spec (id n) 0) as [He|_]; [lia|]. simpl.
    now rewrite Hget.
  - intros path. unfold getDocumentation, getById.
    cbn [GetDocumentationParams.symbolId GetDocumentationParams.symbolPath].
    rewrite Hget. now destruct path.
Qed.

(** X18. On a loaded parser, asking for the documentation by id fails
    with "Symbol not found" exactly when no visited node carries the
    id, whatever path is given with it.  Asking with neither id nor
    path fails with the message that one of them is needed, and an
    empty path without an id is never found. *)
Theorem getDocumentation_failures root :
  (forall i path,
     getDocumentation Documentation assembleDocumentation (loaded root)
       (GetDocumentationParams.mk (Some i) path) = Throw "Symbol not found" <->
     ~ In i (map id (nodes root))) /\
  (forall p,
     getDocumentation Documentation assembleDocumentation p
       (GetDocumentationParams.mk None None) =
     Throw "Either symbolId or symbolPath must be provided") /\
  (forall p,
     getDocumentation Documentation assembleDocumentation p
       (GetDocumentationParams.mk None (Some "")) = Throw "Symbol not found").
Proof.
  split; [|split; reflexivity].
  intros i path. unfold getDocumentation, getById.
  cbn [GetDocumentationParams.symbolId GetDocumentationParams.symbolPath].
  rewrite index_loaded_get.
  destruct (lastWithId i (nodes root)) as [n|] eqn:Hl.
  - apply lastWithId_Some in Hl. destruct Hl as [Hn <-].
    split.
    + now destruct path.
    + intros Hni. exfalso. apply Hni. now apply in_map.
  - apply lastWithId_None in Hl. split; [auto|]. now destruct path.
Qed.

End DocumentationFacts.

Lemma getDocumentation_by_path_and_by_id_witness :
  getDocumentation string name (loaded libTree)
    (GetDocumentationParams.mk None (Some "Lib.Widget.render")) =
    Normal "render" /\
  getDocumentation string name (loaded libTree)
    (GetDocumentationParams.mk (Some 3) (Some "Lib")) = Normal "render".
Proof.
  destruct (getDocumentation_by_path_and_by_id string name libTree
              [(libTree, "Lib");
               (mkReflection 2 "Widget" (Some 128) None
                  (Some [leaf 3 "render" 2048]) None, "Lib.Widget")]
              (leaf 3 "render" 2048) "Lib.Widget.render" []
              libTree_unique libTree_positive eq_refl)
    as [Hpath Hid].
  - intros x [].
  - discriminate.
  - split; [exact Hpath | exact (Hid (Some "Lib"))].
Defined.

(** ** Loading on demand *)

Lemma parse_normal_size content p :
  snd (parse content p) = Normal tt ->
  (1 <= JsMap.size (index (fst (parse content p))))%nat.
Proof.
  destruct content as [error| |root]; try discriminate. intros _.
  unfold parse. cbn [fst]. rewrite buildIndex_walk, index_indexAll.
  rewrite walk_unfold. cbv zeta. cbn [fold_left index].
  set (rest := flat_map _ _ ++ flat_map _ _).
  set (first := indexStep (index p) (root, fullPath "" (name root))).
  pose proof (indexStep_size rest first) as Hsize.
  pose proof (set_length_ge (id root) root (index p)) as Hset.
  unfold JsMap.size. subst first. unfold indexStep in *. cbn [fst] in *. lia.
Qed.

Lemma parse_throw_index content p message :
  snd (parse content p) = Throw message ->
  index (fst (parse content p)) = index p.
Proof. destruct content; [reflexivity | reflexivity | discriminate]. Qed.

Section LoadingFacts.
Variable access : string -> bool.
Variable readDocument : string -> Source.
Variable path_join : list string -> string.

(** X19. Once [ensureParserLoaded] has answered true, calling it again
    answers true and changes nothing: the document is not parsed a
    second time, because a successful load leaves the total above 0. *)
Theorem ensureParserLoaded_idempotent s s' :
  ensureParserLoaded access readDocument path_join s = (s', true) ->
  ensureParserLoaded access readDocument path_join s' = (s', true).
Proof.
  unfold ensureParserLoaded at 1. cbv zeta.
  set (s1 := match Server.parser s with Some _ => s | None => _ end).
  destruct (Server.parser s1) as [p|] eqn:Hp; [|discriminate].
  destruct (0 <? Z.of_nat (total (getStats p))) eqn:Htotal.
  - intros [= <-]. unfold ensureParserLoaded. cbv zeta.
    rewrite Hp, Hp, Htotal. reflexivity.
  - destruct (parse (readDocument (docPath p)) p) as [p' completion] eqn:Hparse.
    destruct completion as [[]|message]; [|discriminate].
    intros [= <-]. unfold ensureParserLoaded. cbv zeta.
    cbn [Server.parser Server.config].
    pose proof (parse_normal_size (readDocument (docPath p)) p) as Hsize.
    rewrite Hparse in Hsize. cbn [fst snd] in Hsize. specialize (Hsize eq_refl).
    replace (0 <? Z.of_nat (total (getStats p'))) with true; [reflexivity|].
    symmetry. apply Z.ltb_lt. change (total (getStats p')) with (JsMap.size (index p')).
    lia.
Qed.

(** X20. When [ensureParserLoaded] answers false, either the server has
    no parser -- none was configured and no candidate file of the
    project is accessible -- or it has one; and if the file of that
    parser cannot be read or parsed as JSON, or holds a falsy value, the
    parser's total is still 0, so that the next call tries to load
    again. *)
Theorem ensureParserLoaded_failure s s' :
  ensureParserLoaded access readDocument path_join s = (s', false) ->
  match Server.parser s' with
  | None =>
      s' = s /\ Server.parser s = None /\
      (forall projectPath,
         ServerConfig.projectPath (Server.config s) = Some projectPath ->
         projectPath <> "" ->
         forall candidate, In candidate
             [path_join [projectPath; "docs"; "typedoc.json"];
              path_join [projectPath; "documentation"; "typedoc.json"];
              path_join [projectPath; "typedoc.json"]] ->
           access candidate = false)
  | Some p' =>
      (exists error, readDocument (docPath p') = Unreadable error) \/
      readDocument (docPath p') = Falsy ->
      total (getStats p') = 0%nat
  end.
Proof.
  unfold ensureParserLoaded. cbv zeta.
  set (s1 := match Server.parser s with Some _ => s | None => _ end).
  destruct (Server.parser s1) as [p|] eqn:Hp.
  - destruct (0 <? Z.of_nat (total (getStats p))) eqn:Htotal; [discriminate|].
    destruct (parse (readDocument (docPath p)) p) as [p' completion] eqn:Hparse.
    destruct completion as [[]|message]; [discriminate|].
    intros [= <-]. cbn [Server.parser]. intros _.
    pose proof (parse_throw_index (readDocument (docPath p)) p message) as Hidx.
    rewrite Hparse in Hidx. cbn [fst snd] in Hidx. specialize (Hidx eq_refl).
    apply Z.ltb_ge in Htotal.
    change (total (getStats p')) with (JsMap.size (index p')).
    change (total (getStats p)) with (JsMap.size (index p)) in Htotal.
    rewrite Hidx. lia.
  - intros [= <-]. rewrite Hp. subst s1.
    destruct (Server.parser s) as [p0|] eqn:Hs; [congruence|].
    destruct (ServerConfig.projectPath (Server.config s)) as [pp|] eqn:Hpp.
    + destruct (truthy_string pp) eqn:Htruthy.
      * destruct (find access (possiblePaths path_join pp)) as [found|] eqn:Hf;
          [discriminate|].
        repeat split. intros projectPath [= <-] _ candidate Hc.
        now apply (find_none _ _ Hf).
      * repeat split. intros projectPath [= <-] Hne.
        destruct pp; [congruence | discriminate].
    + repeat split. discriminate.
Qed.

End LoadingFacts.

Lemma ensureParserLoaded_idempotent_witness :
  let access := String.eqb "proj/docs/typedoc.json" in
  let readDocument := fun _ : string => Document libTree in
  let path_join := String.concat "/" in
  let s0 := Server.mk None (ServerConfig.mk None (Some "proj") None) in
  let s1 := fst (ensureParserLoaded access readDocument path_join s0) in
  ensureParserLoaded access readDocument path_join s0 = (s1, true) /\
  ServerConfig.docPath (Server.config s1) = Some "proj/docs/typedoc.json" /\
  ensureParserLoaded access readDocument path_join s1 = (s1, true).
Proof.
  cbv zeta. split; [reflexivity|]. split; [reflexivity|].
  apply (ensureParserLoaded_idempotent (String.eqb "proj/docs/typedoc.json")
           (fun _ => Document libTree) (String.concat "/")
           (Server.mk None (ServerConfig.mk None (Some "proj") None))).
  reflexivity.
Defined.

Lemma ensureParserLoaded_failure_witness :
  total (getStats (TypeDocParser_new "docs.json")) = 0%nat.
Proof.
  exact (ensureParserLoaded_failure (fun _ => false) (fun _ => Falsy)
           (String.concat "/")
           (Server.mk (Some (TypeDocParser_new "docs.json"))
              (ServerConfig.mk (Some "docs.json") None None))
           (Server.mk (Some (TypeDocParser_new "docs.json"))
              (ServerConfig.mk (Some "docs.json") None None))
           eq_refl (or_intror eq_refl)).
Defined.

(** ** Command-line arguments *)

Lemma isFlag_false a :
  isFlag a = false ->
  String.eqb a "--doc-path" || String.eqb a "-d" = false /\
  String.eqb a "--project-path" || String.eqb a "-p" = false /\
  String.eqb a "--name" || String.eqb a "-n" = false /\
  String.eqb a "--help" || String.eqb a "-h" = false.
Proof.
  unfold isFlag. cbn [existsb]. intros Hf.
  repeat (apply orb_false_elim in Hf; destruct Hf as [? Hf]).
  repeat split; apply orb_false_intro; assumption.
Qed.

(** X21. When no argument is one of the eight flags, [parseArgs]
    returns its defaults: no document path, no project path, no server
    name, and no request for help. *)
Theorem parseArgs_without_flags args :
  (forall a, In a args -> isFlag a = false) ->
  parseArgs args = ParsedArgs.mk None None None false.
Proof.
  unfold parseArgs. generalize (ParsedArgs.mk None None None false).
  induction args as [|a rest IH]; intros acc Hall; [reflexivity|].
  destruct (isFlag_false a (Hall a (or_introl eq_refl))) as (Hd & Hp & Hn & Hh).
  cbn [parseArgs_loop]. rewrite Hd, Hp, Hn, Hh.
  apply IH. intros b Hb. apply Hall. now right.
Qed.

Lemma parseArgs_without_flags_witness :
  (forall a, In a ["serve"; "docs.json"] -> isFlag a = false) /\
  parseArgs ["serve"; "docs.json"] = ParsedArgs.mk None None None false.
Proof.
  assert (Hall : forall a, In a ["serve"; "docs.json"] -> isFlag a = false).
  { intros a [<-|[<-|[]]]; reflexivity. }
  split; [exact Hall|]. exact (parseArgs_without_flags _ Hall).
Defined.

Lemma parseArgs_loop_fields n : forall args acc acc',
  (List.length args <= n)%nat ->
  (ParsedArgs.help acc = ParsedArgs.help acc' ->
   ParsedArgs.help (parseArgs_loop args acc) =
   ParsedArgs.help (parseArgs_loop args acc')) /\
  (ParsedArgs.projectPath acc = ParsedArgs.projectPath acc' ->
   ParsedArgs.projectPath (parseArgs_loop args acc) =
   ParsedArgs.projectPath (parseArgs_loop args acc')) /\
  (ParsedArgs.serverName acc = ParsedArgs.serverName acc' ->
   ParsedArgs.serverName (parseArgs_loop args acc) =
   ParsedArgs.serverName (parseArgs_loop args acc')).
Proof.
  induction n as [|n IH]; intros [|a rest] acc acc' Hlen;
    try (simpl in Hlen; lia); try (repeat split; auto; fail).
  assert (Hrest : (List.length rest <= n)%nat) by (simpl in Hlen; lia).
  assert (Hrest' : forall v rest', rest = v :: rest' ->
                     (List.length rest' <= n)%nat).
  { intros v rest' ->. simpl in Hrest. lia. }
  cbn [parseArgs_loop].
  destruct (String.eqb a "--doc-path" || String.eqb a "-d").
  { destruct rest as [|v rest']; [repeat split; auto|].
    repeat split; intros He; apply IH; try (now apply (Hrest' v)); exact He. }
  destruct (String.eqb a "--project-path" || String.eqb a "-p").
  { destruct rest as [|v rest']; [repeat split; auto|].
    repeat split; intros He; apply IH; try (now apply (Hrest' v));
      try exact He; reflexivity. }
  destruct (String.eqb a "--name" || String.eqb a "-n").
  { destruct rest as [|v rest']; [repeat split; auto|].
    repeat split; intros He; apply IH; try (now apply (Hrest' v));
      try exact He; reflexivity. }
  destruct (String.eqb a "--help" || String.eqb a "-h").
  { repeat split; intros He; apply IH; try exact Hrest; try exact He;
      reflexivity. }
  repeat split; intros He; apply IH; try exact Hrest; exact He.
Qed.

Lemma parseArgs_loop_docPath_kept n : forall args acc,
  (List.length args <= n)%nat ->
  (forall a, In a args -> a <> "--doc-path" /\ a <> "-d") ->
  ParsedArgs.docPath (parseArgs_loop args acc) = ParsedArgs.docPath acc.
Proof.
  induction n as [|n IH]; intros [|a rest] acc Hlen Hall;
    try (simpl in Hlen; lia); try reflexivity.
  assert (Hrest : (List.length rest <= n)%nat) by (simpl in Hlen; lia).
  destruct (Hall a (or_introl eq_refl)) as [Hd1 Hd2].
  apply String.eqb_neq in Hd1, Hd2.
  cbn [parseArgs_loop]. rewrite Hd1, Hd2. cbn [orb].
  assert (Htail : forall v rest', rest = v :: rest' ->
            (List.length rest' <= n)%nat /\
            forall b, In b rest' -> b <> "--doc-path" /\ b <> "-d").
  { intros v rest' ->. split; [simpl in Hrest; lia|].
    intros b Hb. apply Hall. right. now right. }
  assert (Hall' : forall b, In b rest -> b <> "--doc-path" /\ b <> "-d").
  { intros b Hb. apply Hall. now right. }
  destruct (String.eqb a "--project-path" || String.eqb a "-p").
  { destruct rest as [|v rest']; [reflexivity|].
    destruct (Htail v rest' eq_refl). now rewrite IH. }
  destruct (String.eqb a "--name" || String.eqb a "-n").
  { destruct rest as [|v rest']; [reflexivity|].
    destruct (Htail v rest' eq_refl). now rewrite IH. }
  destruct (String.eqb a "--help" || String.eqb a "-h").
  { now rewrite IH. }
  now rewrite IH.
Qed.

(** X22. The argument that follows [--doc-path] or [-d] is taken as the
    document path and never read as a flag: help, project path and
    server name come out as for the arguments after it, and the
    document path is that argument unless a later [--doc-path] or [-d]
    replaces it. *)
Theorem parseArgs_doc_path_value flag v rest :
  flag = "--doc-path" \/ flag = "-d" ->
  ParsedArgs.help (parseArgs (flag :: v :: rest)) =
    ParsedArgs.help (parseArgs rest) /\
  ParsedArgs.projectPath (parseArgs (flag :: v :: rest)) =
    ParsedArgs.projectPath (parseArgs rest) /\
  ParsedArgs.serverName (parseArgs (flag :: v :: rest)) =
    ParsedArgs.serverName (parseArgs rest) /\
  ((forall a, In a rest -> a <> "--doc-path" /\ a <> "-d") ->
   ParsedArgs.docPath (parseArgs (flag :: v :: rest)) = Some v).
Proof.
  intros Hflag. unfold parseArgs.
  assert (Hstep : forall acc,
    parseArgs_loop (flag :: v :: rest) acc =
    parseArgs_loop rest
      {| ParsedArgs.docPath := Some v;
         ParsedArgs.projectPath := ParsedArgs.projectPath acc;
         ParsedArgs.serverName := ParsedArgs.serverName acc;
         ParsedArgs.help := ParsedArgs.help acc |}).
  { intros acc. destruct Hflag as [-> | ->]; reflexivity. }
  rewrite Hstep. cbn [ParsedArgs.projectPath ParsedArgs.serverName
                      ParsedArgs.help].
  destruct (parseArgs_loop_fields (List.length rest) rest
              (ParsedArgs.mk (Some v) None None false)
              (ParsedArgs.mk None None None false) (le_n _))
    as (Hh & Hp & Hn).
  repeat split; [now apply Hh | now apply Hp | now apply Hn |].
  intros Hall.
  now rewrite (parseArgs_loop_docPath_kept (List.length rest) rest _ (le_n _) Hall).
Qed.

Lemma parseArgs_doc_path_value_witness :
  parseArgs ["-d"; "--help"; "-n"; "docs"] =
  ParsedArgs.mk (Some "--help") None (Some "docs") false /\
  ParsedArgs.help (parseArgs ["-d"; "--help"; "-n"; "docs"]) =
  ParsedArgs.help (parseArgs ["-n"; "docs"]).
Proof.
  split; [reflexivity|].
  exact (proj1 (parseArgs_doc_path_value "-d" "--help" ["-n"; "docs"]
                  (or_intror eq_refl))).
Defined.
